(** * f4pga flows: dependency qualifiers, the resolution environment,
      the process wrapper and the yosys module's [map_io]

    A shallow embedding of [f4pga/flows/common.py] and of
    [f4pga/flows/modules/yosys.py].

    Conventions of the embedding:
    - a Python [str] (and a [bytes] object) is a list of characters, [pystr];
      slicing with non-negative bounds is [firstn]/[skipn], which clamp to
      the length exactly as Python's slices do;
    - a Python exception is the [Raise] outcome of the [res] type, so a
      function that can raise returns [res A];
    - a Python [dict] with string keys is an association list in insertion
      order with unique keys (the order of [items()] decides the order in
      which [add_values] resolves and stores its entries);
    - the object a [ResolutionEnv] holds in [self.values] lives in a heap
      of dict objects, so that two environments can hold the same object. *)

From Stdlib Require Import Ascii String Bool Arith ZArith Lia List.
Import ListNotations.

Set Implicit Arguments.
Set Warnings "-register-all".

(* ------------------------------------------------------------------ *)
(** ** Python strings and outcomes *)

Definition pystr := list ascii.

(** [str] turns a literal into a Python string. *)
Definition str (s : string) : pystr := list_ascii_of_string s.

Fixpoint pystr_eqb (a b : pystr) : bool :=
  match a, b with
  | [], [] => true
  | x :: a', y :: b' => Ascii.eqb x y && pystr_eqb a' b'
  | _, _ => false
  end.

(** The exceptions the embedded functions can raise. [ModuleRuntimeException]
    carries its message, [SystemExit] is what [exit(code)] raises to end the
    run. [OutsideModel] is not a Python exception: it marks
    the one situation the data model cannot represent (a dict key that is
    not a string). *)
Inductive exn : Type :=
| IndexError
| TypeError
| ValueError
| NameError (name : pystr)
| ModuleRuntimeException (message : pystr)
| SystemExit (code : Z)
| UnicodeDecodeError
| OutsideModel.

Inductive res (A : Type) : Type :=
| Ok (a : A)
| Raise (e : exn).

Arguments Ok {A} a.
Arguments Raise {A} e.

Definition bind {A B : Type} (r : res A) (k : A -> res B) : res B :=
  match r with
  | Ok a => k a
  | Raise e => Raise e
  end.

Notation "'do' x <- r ; k" := (bind r (fun x => k))
  (at level 10, x pattern, r at level 100, k at level 200).

(** [seq[i]] for an integer index: a negative index counts from the end, an
    index out of range raises [IndexError]. *)
Definition py_getitem {A : Type} (l : list A) (i : Z) : res A :=
  let n := Z.of_nat (length l) in
  let j := if (i <? 0)%Z then (i + n)%Z else i in
  if ((j <? 0) || (n <=? j))%Z then Raise IndexError
  else match nth_error l (Z.to_nat j) with
       | Some a => Ok a
       | None => Raise IndexError
       end.

(** [seq[:i]] for an integer bound: a negative bound counts from the end and
    both ends clamp. *)
Definition py_slice_to {A : Type} (l : list A) (i : Z) : list A :=
  let n := Z.of_nat (length l) in
  let j := if (i <? 0)%Z then Z.max 0 (i + n)%Z else i in
  firstn (Z.to_nat j) l.

(* ------------------------------------------------------------------ *)
(** ** Dependency qualifiers: [decompose_depname], [with_qualifier] *)

Definition q_req : pystr := str "req".
Definition q_maybe : pystr := str "maybe".
Definition q_demand : pystr := str "demand".

(** The three qualifier tags: required, optional, demanded. *)
Definition qualifiers : list pystr := [q_req; q_maybe; q_demand].

Definition decompose_depname (name : pystr) : res (pystr * pystr) :=
  let spec := q_req in
  do specchar <- py_getitem name (Z.of_nat (length name) - 1);
  let spec :=
    if Ascii.eqb specchar "?" then q_maybe
    else if Ascii.eqb specchar "!" then q_demand
    else spec in
  let name :=
    if negb (pystr_eqb spec q_req)
    then py_slice_to name (Z.of_nat (length name) - 1)
    else name in
  Ok (name, spec).

(** [with_qualifier] falls off its end, returning [None], when [q] is none of
    the three tags. *)
Definition with_qualifier (name q : pystr) : res (option pystr) :=
  if pystr_eqb q q_req then
    do d <- decompose_depname name; Ok (Some (fst d))
  else if pystr_eqb q q_maybe then
    do d <- decompose_depname name; Ok (Some (fst d ++ str "?"))
  else if pystr_eqb q q_demand then
    do d <- decompose_depname name; Ok (Some (fst d ++ str "!"))
  else Ok None.

(** Decomposing a name and recomposing the base with the qualifier found. *)
Definition recompose (name : pystr) : res (option pystr) :=
  do d <- decompose_depname name; with_qualifier (fst d) (snd d).

(** A base name that [decompose_depname] leaves whole: not empty and not
    ending in one of the two markers. *)
Definition plain_base (b : pystr) : bool :=
  match rev b with
  | [] => false
  | c :: _ => negb (Ascii.eqb c "?") && negb (Ascii.eqb c "!")
  end.

(* ------------------------------------------------------------------ *)
(** ** Values and dicts *)

(** What a flow configuration (loaded from JSON) holds: [None], booleans,
    numbers, strings, lists and string-keyed dicts. *)
Inductive Value : Type :=
| VNone
| VBool (b : bool)
| VInt (z : Z)
| VStr (s : pystr)
| VList (l : list Value)
| VDict (d : list (pystr * Value)).

Definition Dict := list (pystr * Value).

(** Python's truth value, as [if not v] tests it. *)
Definition truthy (v : Value) : bool :=
  match v with
  | VNone => false
  | VBool b => b
  | VInt z => negb (z =? 0)%Z
  | VStr s => negb (Nat.eqb (length s) 0)
  | VList l => negb (Nat.eqb (length l) 0)
  | VDict d => negb (Nat.eqb (length d) 0)
  end.

(** [d.get(k)]: the first (and only) entry with key [k]. *)
Fixpoint dict_get {V : Type} (k : pystr) (d : list (pystr * V)) : option V :=
  match d with
  | [] => None
  | (k', v) :: d' => if pystr_eqb k k' then Some v else dict_get k d'
  end.

(** [d[k] = v]: overwrite in place when [k] is a key, append otherwise. *)
Fixpoint dict_set {V : Type} (k : pystr) (v : V) (d : list (pystr * V))
  : list (pystr * V) :=
  match d with
  | [] => [(k, v)]
  | (k', v') :: d' =>
      if pystr_eqb k k' then (k', v) :: d' else (k', v') :: dict_set k v d'
  end.

Definition dict_keys {V : Type} (d : list (pystr * V)) : list pystr :=
  map fst d.

Definition dict_has {V : Type} (k : pystr) (d : list (pystr * V)) : bool :=
  match dict_get k d with Some _ => true | None => false end.

(** [d.update(d2)] for a dict [d2]: every entry of [d2] is stored in turn. *)
Definition dict_merge {V : Type} (d d2 : list (pystr * V)) : list (pystr * V) :=
  fold_left (fun acc kv => dict_set (fst kv) (snd kv) acc) d2 d.

(* ------------------------------------------------------------------ *)
(** ** [re.finditer] for the pattern of [resolve] *)

(** A match object of the [re.finditer] call of [resolve]: its [span()] and
    its [group(1)]. The pattern is a dollar sign, an opening brace, a group
    of any number of characters other than the dollar sign and the two
    braces, and a closing brace. *)
Record Match : Type := mkMatch {
  m_start : nat;
  m_end : nat;
  m_group1 : pystr
}.

(** The character class of the group: anything but the dollar sign and the
    two braces. *)
Definition name_char (c : ascii) : bool :=
  negb (Ascii.eqb c "$" || Ascii.eqb c "{" || Ascii.eqb c "}").

(** The group and the closing brace at the head of [s]: the group's text
    and what follows the closing brace. The class excludes the brace, so the
    greedy star stops at the first character outside the class and there is
    nothing to backtrack to. *)
Fixpoint match_name (s : pystr) : option (pystr * pystr) :=
  match s with
  | [] => None
  | c :: s' =>
      if Ascii.eqb c "}" then Some ([], s')
      else if name_char c then
        match match_name s' with
        | Some (n, r) => Some (c :: n, r)
        | None => None
        end
      else None
  end.

(** The whole pattern at the head of [s]. *)
Definition match_here (s : pystr) : option (pystr * pystr) :=
  match s with
  | c1 :: c2 :: s' =>
      if Ascii.eqb c1 "$" && Ascii.eqb c2 "{" then match_name s' else None
  | _ => None
  end.

(** The scan of [finditer]: try the pattern at the current position; after a
    match go on behind it, otherwise one character further. [fuel] bounds
    the number of positions tried; the length of [s] is enough. *)
Fixpoint finditer_from (fuel pos : nat) (s : pystr) : list Match :=
  match fuel with
  | O => []
  | S fuel' =>
      match s with
      | [] => []
      | _ :: s' =>
          match match_here s with
          | Some (n, r) =>
              let e := pos + (3 + length n) in
              mkMatch pos e n :: finditer_from fuel' e r
          | None => finditer_from fuel' (S pos) s'
          end
      end
  end.

Definition finditer (s : pystr) : list Match :=
  finditer_from (length s) 0 s.

(* ------------------------------------------------------------------ *)
(** ** [ResolutionEnv.resolve] *)

(** [match_str.replace] of the question mark by the empty string: every
    question mark goes. *)
Definition remove_qmarks (n : pystr) : pystr :=
  filter (fun c => negb (Ascii.eqb c "?")) n.

(** [s[:a] + v + s[b:]] where [s] is the working value of the loop, a [str]
    or, after a list was spliced in, a [list]. Python concatenates a [str]
    only with a [str] and a [list] only with a [list]. *)
Definition splice (s : Value) (a b : nat) (v : Value) : res Value :=
  match s, v with
  | VStr x, VStr y => Ok (VStr (firstn a x ++ y ++ skipn b x))
  | VList x, VList y => Ok (VList (firstn a x ++ y ++ skipn b x))
  | _, _ => Raise TypeError
  end.

(** A list comprehension whose body can raise. *)
Fixpoint map_res {A B : Type} (f : A -> res B) (l : list A) : res (list B) :=
  match l with
  | [] => Ok []
  | a :: l' => do b <- f a; do bs <- map_res f l'; Ok (b :: bs)
  end.

(** [self.values.get(match_str)]: [None] when the key is absent. *)
Definition lookup (vals : Dict) (k : pystr) : Value :=
  match dict_get k vals with
  | Some v => v
  | None => VNone
  end.

(** One turn of the loop over the reversed matches. *)
Definition resolve_match (vals : Dict) (final : bool) (s : Value) (m : Match)
  : res Value :=
  let match_str := remove_qmarks (m_group1 m) in
  let v := lookup vals match_str in
  if negb (truthy v) && negb final then Ok s
  else
    let v := if negb (truthy v) then VStr [] else v in
    match v with
    | VStr _ => splice s (m_start m) (m_end m) v
    | VList l =>
        do ns <- map_res (fun ve => splice s (m_start m) (m_end m) ve) l;
        Ok (VList ns)
    | _ => Ok s
    end.

Definition resolve_loop (vals : Dict) (final : bool) (ms : list Match)
  (s : Value) : res Value :=
  fold_left (fun acc m => do s' <- acc; resolve_match vals final s' m)
            ms (Ok s).

(** The [type(s) is str] branch. *)
Definition resolve_str (vals : Dict) (s : pystr) (final : bool) : res Value :=
  resolve_loop vals final (rev (finditer s)) (VStr s).

(** [resolve]. The list and dict branches call [self.resolve] on the elements
    with one argument, so [final] has its default there. *)
Fixpoint resolve (vals : Dict) (s : Value) (final : bool) : res Value :=
  match s with
  | VStr x => resolve_str vals x final
  | VList l =>
      do l' <- (fix go (l : list Value) : res (list Value) :=
                  match l with
                  | [] => Ok []
                  | v :: t =>
                      do v' <- resolve vals v false;
                      do t' <- go t;
                      Ok (v' :: t')
                  end) l;
      Ok (VList l')
  | VDict d =>
      do d' <- (fix go (d : Dict) : res Dict :=
                  match d with
                  | [] => Ok []
                  | (k, v) :: t =>
                      do v' <- resolve vals v false;
                      do t' <- go t;
                      Ok ((k, v') :: t')
                  end) d;
      Ok (VDict d')
  | _ => Ok s
  end.

(** The text of a placeholder with the given name between the braces, and
    the names the pattern accepts. *)
Definition placeholder (n : pystr) : pystr := str "${" ++ n ++ str "}".

Definition name_chars (n : pystr) : bool := forallb name_char n.

(** The match object of the placeholder named [n] that follows [pre]. *)
Definition ph_match (pre n : pystr) : Match :=
  mkMatch (length pre) (length pre + (3 + length n)) n.

(** A match moved [k] characters to the right. *)
Definition shift (k : nat) (m : Match) : Match :=
  mkMatch (k + m_start m) (k + m_end m) (m_group1 m).

(** Matches in the order the loop takes them, rightmost first, below [n]
    and not overlapping. *)
Fixpoint desc_below (n : nat) (ms : list Match) : Prop :=
  match ms with
  | [] => True
  | m :: ms' => m_start m <= m_end m /\ m_end m <= n /\ desc_below (m_start m) ms'
  end.

(** Matches in the order [finditer] yields them, leftmost first, between
    [lo] and [hi] and not overlapping. *)
Fixpoint asc_within (lo hi : nat) (ms : list Match) : Prop :=
  match ms with
  | [] => True
  | m :: ms' =>
      lo <= m_start m /\ m_start m <= m_end m /\ m_end m <= hi
      /\ asc_within (m_end m) hi ms'
  end.

(** Whether the loop replaces the text of a placeholder with lookup key
    [key]: the key is bound to a string or list that is not empty, or
    [final] is set and the key is unbound or bound to a false value. *)
Definition substituted (vals : Dict) (final : bool) (key : pystr) : bool :=
  match lookup vals key with
  | VStr (_ :: _) => true
  | VList (_ :: _) => true
  | v => final && negb (truthy v)
  end.

(** What the loop puts between [pre] and [post] for the value [v] it found. *)
Definition fill (pre post : pystr) (v : Value) : res Value :=
  let v := if negb (truthy v) then VStr [] else v in
  match v with
  | VStr y => Ok (VStr (pre ++ y ++ post))
  | VList l =>
      do ns <- map_res (fun ve => match ve with
                                  | VStr y => Ok (VStr (pre ++ y ++ post))
                                  | _ => Raise TypeError
                                  end) l;
      Ok (VList ns)
  | _ => Ok (VStr (pre ++ post))
  end.

(** [del d[k]]: the dict without the key. *)
Definition unbind {V : Type} (k : pystr) (d : list (pystr * V))
  : list (pystr * V) :=
  filter (fun kv => negb (pystr_eqb k (fst kv))) d.

(* ------------------------------------------------------------------ *)
(** ** [ResolutionEnv.add_values] on the dict object *)

(** One element of the iterable given to [dict.update] as a key/value pair:
    the element is itself iterated and has to yield exactly two items. A
    [str] yields its characters, a [list] its elements, a [dict] its keys. *)
Definition update_pair (e : Value) : res (Value * Value) :=
  match e with
  | VStr [c1; c2] => Ok (VStr [c1], VStr [c2])
  | VStr _ => Raise ValueError
  | VList [k; v] => Ok (k, v)
  | VList _ => Raise ValueError
  | VDict [(k1, _); (k2, _)] => Ok (VStr k1, VStr k2)
  | VDict _ => Raise ValueError
  | _ => Raise TypeError
  end.

(** [dict.update] from a sequence of pairs: pairs are stored as they come,
    so what was stored before a bad element stays. Lists and dicts are not
    hashable; any other key that is not a string leaves the data model. *)
Fixpoint update_from_seq (d : Dict) (l : list Value) : Dict * res unit :=
  match l with
  | [] => (d, Ok tt)
  | e :: l' =>
      match update_pair e with
      | Raise x => (d, Raise x)
      | Ok (VStr k, v) => update_from_seq (dict_set k v d) l'
      | Ok (VList _, _) => (d, Raise TypeError)
      | Ok (VDict _, _) => (d, Raise TypeError)
      | Ok (_, _) => (d, Raise OutsideModel)
      end
  end.

(** [d.update(x)] for whatever [resolve] returned. *)
Definition py_dict_update (d : Dict) (x : Value) : Dict * res unit :=
  match x with
  | VDict d2 => (dict_merge d d2, Ok tt)
  | VList l => update_from_seq d l
  | VStr s => update_from_seq d (map (fun c => VStr [c]) s)
  | _ => (d, Raise TypeError)
  end.

(** The body of the loop of [add_values] for one item [(k, v)], on the dict
    object [vals] that [self.values] refers to. An exception leaves the
    mutations made so far in place. *)
Definition add_value (vals : Dict) (k : pystr) (v : Value) : Dict * res unit :=
  match dict_get k vals with
  | Some (VDict d) =>
      match resolve vals v false with
      | Ok r =>
          let (d', out) := py_dict_update d r in
          (dict_set k (VDict d') vals, out)
      | Raise e => (vals, Raise e)
      end
  | _ =>
      match resolve vals v false with
      | Ok r => (dict_set k r vals, Ok tt)
      | Raise e => (vals, Raise e)
      end
  end.

(** [for k, v in values.items(): ...]: the loop stops at the first exception. *)
Fixpoint add_values_dict (vals : Dict) (items : Dict) : Dict * res unit :=
  match items with
  | [] => (vals, Ok tt)
  | (k, v) :: items' =>
      match add_value vals k v with
      | (vals', Ok _) => add_values_dict vals' items'
      | (vals', Raise e) => (vals', Raise e)
      end
  end.


(* ------------------------------------------------------------------ *)
(** ** [ResolutionEnv] objects and the dict objects they share *)

(** The heap of the dict objects environments hold in [self.values], by
    address. Values stored inside such a dict are kept by value: what
    [add_values] stores is always the fresh result of [resolve]. A second
    reference to a dict nested inside a store, as a shallow copy of the
    store would hold, is outside this model. *)
Definition Heap := list Dict.

(** The dict object that the [def] of [__init__] built once for the default
    value of its parameter [values]. *)
Definition default_values : nat := 0.

(** The heap when the class has just been defined: the default object, empty. *)
Definition initial_heap : Heap := [[]].

Definition heap_get (a : nat) (h : Heap) : Dict := nth a h [].

Fixpoint heap_set (a : nat) (d : Dict) (h : Heap) : Heap :=
  match h, a with
  | [], _ => []
  | _ :: h', O => d :: h'
  | x :: h', S a' => x :: heap_set a' d h'
  end.

(** A dict display evaluated by the caller: a new object. *)
Definition new_dict (d : Dict) (h : Heap) : nat * Heap :=
  (length h, h ++ [d]).

Record ResolutionEnv : Type := mkEnv { values : nat }.

(** [__init__(self, values={})]: [self.values] is the argument, or the one
    default object when the argument is left out. *)
Definition init (arg : option nat) : ResolutionEnv :=
  match arg with
  | Some a => mkEnv a
  | None => mkEnv default_values
  end.

Definition env_resolve (self : ResolutionEnv) (s : Value) (final : bool)
  (h : Heap) : res Value :=
  resolve (heap_get (values self) h) s final.

Definition add_values (self : ResolutionEnv) (items : Dict) (h : Heap)
  : Heap * res unit :=
  let (d, out) := add_values_dict (heap_get (values self) h) items in
  (heap_set (values self) d h, out).

(* ------------------------------------------------------------------ *)
(** ** The process execution wrapper [sub] *)

(** What [subprocess.run] hands back with [capture_output=True]. *)
Record CompletedProcess : Type := mkCompleted {
  returncode : Z;
  stdout : pystr;
  stderr : pystr
}.

Definition nl : pystr := ["010"%char].

(** Whether the value of a byte lies between [lo] and [hi]. *)
Definition byte_in (lo hi : nat) (c : ascii) : bool :=
  (lo <=? nat_of_ascii c) && (nat_of_ascii c <=? hi).

(** The byte sequences the strict UTF-8 codec of [bytes.decode()] accepts:
    one byte below 128; a lead byte 194..223 and one continuation byte; a
    lead byte 224..239 and two, without overlong forms and surrogates; a
    lead byte 240..244 and three, up to the last code point. *)
Fixpoint valid_utf8 (b : pystr) : bool :=
  match b with
  | [] => true
  | c1 :: r1 =>
      if byte_in 0 127 c1 then valid_utf8 r1
      else
        match r1 with
        | [] => false
        | c2 :: r2 =>
            if byte_in 194 223 c1 then byte_in 128 191 c2 && valid_utf8 r2
            else
              match r2 with
              | [] => false
              | c3 :: r3 =>
                  if byte_in 224 239 c1 then
                    (byte_in 224 224 c1 && byte_in 160 191 c2
                     || byte_in 225 236 c1 && byte_in 128 191 c2
                     || byte_in 237 237 c1 && byte_in 128 159 c2
                     || byte_in 238 239 c1 && byte_in 128 191 c2)
                    && byte_in 128 191 c3 && valid_utf8 r3
                  else
                    match r3 with
                    | [] => false
                    | c4 :: r4 =>
                        (byte_in 240 240 c1 && byte_in 144 191 c2
                         || byte_in 241 243 c1 && byte_in 128 191 c2
                         || byte_in 244 244 c1 && byte_in 128 143 c2)
                        && byte_in 128 191 c3 && byte_in 128 191 c4
                        && valid_utf8 r4
                    end
              end
        end
  end.

(** [bytes.decode()]: the text, kept here as its UTF-8 encoding, when the
    bytes are valid UTF-8, and [UnicodeDecodeError] otherwise. *)
Definition decode (b : pystr) : res pystr :=
  if valid_utf8 b then Ok b else Raise UnicodeDecodeError.

Section Subprocess.

(** The environment and working directory are only passed on to [run];
    [run] is the child process: it blocks until the child has exited. *)
Variables EnvT CwdT : Type.
Variable run : list pystr -> option EnvT -> option CwdT -> CompletedProcess.

(** [sub] returns the lines it printed, oldest first, and its outcome. The
    text of a line is built, and the captured bytes decoded, before the
    line is printed. *)
Definition sub (args : list pystr) (env : option EnvT) (cwd : option CwdT)
  (print_stdout_on_fail : bool) : list pystr * res pystr :=
  let out := run args env cwd in
  if negb (returncode out =? 0)%Z then
    match py_getitem args 0 with
    | Raise e => ([], Raise e)
    | Ok arg0 =>
        let printed :=
          [str "[ERROR]: " ++ arg0 ++ str " non-zero return code." ++ nl] in
        let echo_stderr (printed : list pystr) : list pystr * res pystr :=
          match decode (stderr out) with
          | Raise e => (printed, Raise e)
          | Ok err =>
              (printed ++ [str "stderr:" ++ nl ++ err ++ nl ++ nl],
               Raise (SystemExit (returncode out)))
          end in
        if print_stdout_on_fail then
          match decode (stdout out) with
          | Raise e => (printed, Raise e)
          | Ok text =>
              echo_stderr (printed ++ [str "stdout:" ++ nl ++ text ++ nl ++ nl])
          end
        else echo_stderr printed
    end
  else ([], Ok (stdout out)).

End Subprocess.

(* ------------------------------------------------------------------ *)
(** ** [YosysModule.map_io] *)

(** The names bound at module level in [yosys.py]: what its [import]
    statements bring in and its two own definitions. *)
Definition yosys_globals : list pystr :=
  map str ["environ"; "Path"; "FPGA_FAM"; "decompose_depname";
           "get_verbosity_level"; "common_sub"; "Module"; "ModuleContext";
           "get_tcl_wrapper_path"; "YosysModule"; "ModuleClass"]%string.

(** Reading a global name inside a method of [yosys.py]. The only name read
    below that is not a module global is no builtin either. *)
Definition load_global (name : pystr) : res unit :=
  if existsb (pystr_eqb name) yosys_globals then Ok tt
  else Raise (NameError name).

(** The part of the context [map_io] reads: the optional take [build_dir]
    and the values [top] and [device]. *)
Record ModuleContext : Type := mkContext {
  takes_build_dir : option pystr;
  values_top : pystr;
  values_device : pystr
}.

Record YosysModule : Type := mkYosys { extra_products : list pystr }.

Definition maybe_message (extra : pystr) : pystr :=
  str "Yosys synth extra products can't use 'maybe\ "
  ++ str "(?) specifier. Product causing this error: `" ++ extra ++ str "`.".

Section MapIO.

(** [pathlib]: the constructor, the [/] operator, [.parent] and [str()]. *)
Variable PathT : Type.
Variable Path : pystr -> PathT.
Variable path_div : PathT -> pystr -> PathT.
Variable path_parent : PathT -> PathT.
Variable path_str : PathT -> pystr.

Definition extra_path (top : PathT) (device name : pystr) : pystr :=
  path_str (path_div (path_parent top)
                     (device ++ str "_" ++ name ++ str "." ++ name)).

(** [for extra in self.extra_products: ...] *)
Fixpoint map_io_extras (top : PathT) (device : pystr)
  (mapping : list (pystr * pystr)) (extras : list pystr)
  : res (list (pystr * pystr)) :=
  match extras with
  | [] => Ok mapping
  | extra :: extras' =>
      do d <- decompose_depname extra;
      let (name, spec) := d in
      if pystr_eqb spec q_maybe then
        do _ <- load_global (str "ModuleRuntimeException");
        Raise (ModuleRuntimeException (maybe_message extra))
      else if pystr_eqb spec q_req then
        map_io_extras top device
          (dict_set name (extra_path top device name) mapping) extras'
      else map_io_extras top device mapping extras'
  end.

Definition map_io (self : YosysModule) (ctx : ModuleContext)
  : res (list (pystr * pystr)) :=
  let top :=
    match takes_build_dir ctx with
    | Some ((_ :: _) as build_dir) => path_div (Path build_dir) (values_top ctx)
    | _ => Path (values_top ctx)
    end in
  let mapping :=
    [(str "eblif", path_str top ++ str ".eblif");
     (str "fasm_extra", path_str top ++ str "_fasm_extra.fasm");
     (str "json", path_str top ++ str ".json");
     (str "synth_json", path_str top ++ str "_io.json")] in
  map_io_extras top (values_device ctx) mapping (extra_products self).

End MapIO.

(* ------------------------------------------------------------------ *)
(** ** [deep] *)

(** Outcomes of the functions below, which raise exceptions of further
    classes: [RuntimeError] with its message, [AttributeError], or one of
    the exceptions above. *)
Inductive exc : Type :=
| RuntimeError (message : pystr)
| AttributeError
| Builtin (e : exn).

Inductive out (A : Type) : Type :=
| Done (a : A)
| Fail (e : exc).

Arguments Done {A} a.
Arguments Fail {A} e.

Definition out_bind {A B : Type} (r : out A) (k : A -> out B) : out B :=
  match r with
  | Done a => k a
  | Fail e => Fail e
  end.

(** What [type(paths)] looks like inside an f-string. *)
Definition type_repr (v : Value) : pystr :=
  match v with
  | VNone => str "<class 'NoneType'>"
  | VBool _ => str "<class 'bool'>"
  | VInt _ => str "<class 'int'>"
  | VStr _ => str "<class 'str'>"
  | VList _ => str "<class 'list'>"
  | VDict _ => str "<class 'dict'>"
  end.

(** [deep(fun, allow_none)] is the closure [d]; [fun] is called with the
    string and the extra arguments the caller fixed, and may raise. *)
Fixpoint deep (fun_ : pystr -> out Value) (allow_none : bool) (paths : Value)
  : out Value :=
  match paths with
  | VStr s => fun_ s
  | VList l =>
      out_bind
        ((fix go (l : list Value) : out (list Value) :=
            match l with
            | [] => Done []
            | p :: t =>
                out_bind (deep fun_ allow_none p) (fun p' =>
                out_bind (go t) (fun t' => Done (p' :: t')))
            end) l)
        (fun l' => Done (VList l'))
  | VDict d =>
      out_bind
        ((fix go (d : Dict) : out Dict :=
            match d with
            | [] => Done []
            | (k, p) :: t =>
                out_bind (deep fun_ allow_none p) (fun p' =>
                out_bind (go t) (fun t' => Done ((k, p') :: t')))
            end) d)
        (fun d' => Done (VDict d'))
  | VNone =>
      if allow_none then Done VNone
      else Fail (RuntimeError (str "paths is of type " ++ type_repr paths))
  | _ => Fail (RuntimeError (str "paths is of type " ++ type_repr paths))
  end.

(** Whether every leaf of a value is a string, or [None] where that is
    allowed. *)
Fixpoint deep_leaves (allow_none : bool) (v : Value) : bool :=
  match v with
  | VStr _ => true
  | VList l => forallb (deep_leaves allow_none) l
  | VDict d => forallb (fun kv => deep_leaves allow_none (snd kv)) d
  | VNone => allow_none
  | _ => false
  end.

(** The leaf at which [deep] stops: the first one, in the order of the
    traversal, that is neither a string nor an allowed [None]. *)
Fixpoint first_bad_leaf (allow_none : bool) (v : Value) : option Value :=
  match v with
  | VStr _ => None
  | VList l =>
      (fix go (l : list Value) : option Value :=
         match l with
         | [] => None
         | p :: t =>
             match first_bad_leaf allow_none p with
             | Some x => Some x
             | None => go t
             end
         end) l
  | VDict d =>
      (fix go (d : Dict) : option Value :=
         match d with
         | [] => None
         | (_, p) :: t =>
             match first_bad_leaf allow_none p with
             | Some x => Some x
             | None => go t
             end
         end) d
  | VNone => if allow_none then None else Some VNone
  | _ => Some v
  end.

(** Whether no string inside a value holds a placeholder. *)
Fixpoint plain_value (v : Value) : bool :=
  match v with
  | VStr s => match finditer s with [] => true | _ => false end
  | VList l => forallb plain_value l
  | VDict d => forallb (fun kv => plain_value (snd kv)) d
  | _ => true
  end.

(* ------------------------------------------------------------------ *)
(** ** [options_dict_to_list] *)

Definition is_empty_list (v : Value) : bool :=
  match v with
  | VList [] => true
  | _ => false
  end.

Section Options.

(** The builtin [str()]. *)
Variable py_str : Value -> pystr.

(** The body of the loop for one item. *)
Definition option_item (opts : list pystr) (key : pystr) (val : Value)
  : list pystr :=
  let opts := opts ++ [str "--" ++ key] in
  if negb (is_empty_list val) then opts ++ [py_str val] else opts.

Definition options_dict_to_list (opt_dict : Dict) : list pystr :=
  fold_left (fun opts kv => option_item opts (fst kv) (snd kv)) opt_dict [].

End Options.

(* ------------------------------------------------------------------ *)
(** ** [YosysModule.__init__] and the environment of [execute] *)

(** The parameters [__init__] reads, each absent or of the type the class
    works with: lists of dependency names and a dict of descriptions. *)
Record YosysParams : Type := mkParams {
  params_takes : option (list pystr);
  params_produces : option (list pystr);
  params_prod_meta : option (list (pystr * pystr))
}.

(** The attributes [__init__] sets. *)
Record YosysObject : Type := mkObject {
  self_name : pystr;
  self_no_of_phases : nat;
  self_pnrtool : pystr;
  self_takes : list pystr;
  self_produces : list pystr;
  self_extra_products : list pystr;
  self_values : list pystr;
  self_prod_meta : list (pystr * pystr)
}.

(** [params.get(key)] used as a condition and then as a list: an absent or
    empty list adds nothing. *)
Definition given {A : Type} (o : option (list A)) : list A :=
  match o with
  | Some l => l
  | None => []
  end.

(** [__init__]; [FPGA_FAM] comes from [f4pga.context]. *)
Definition yosys_init (FPGA_FAM : pystr) (params : YosysParams) : YosysObject :=
  let pnrtool :=
    if pystr_eqb FPGA_FAM (str "ice40") then str "nextpnr" else str "vpr" in
  let takes := [str "sources"; str "build_dir?"] ++ given (params_takes params) in
  let produces := [str "json"; str "synth_log!"] in
  let produces :=
    if pystr_eqb pnrtool (str "vpr")
    then produces ++ [str "eblif"; str "fasm_extra"; str "synth_json"]
    else produces in
  let produces := produces ++ given (params_produces params) in
  let prod_meta :=
    [(str "eblif",
      str "Extended BLIF hierarchical sequential designs file" ++ nl
      ++ str "generated by YOSYS");
     (str "json", str "JSON file containing a design generated by YOSYS");
     (str "synth_log", str "YOSYS synthesis log");
     (str "fasm_extra",
      str "Extra FASM generated during sythesis stage. Needed in "
      ++ str "some designs." ++ nl
      ++ str "In case it's not necessary, the file "
      ++ str "will be empty.")] in
  mkObject (str "yosys") 3 pnrtool takes produces
           (given (params_produces params))
           [str "top"; str "device"; str "tcl_scripts?"; str "extra_args?";
            str "yosys_tcl_env?"; str "read_verilog_args?"]
           (dict_merge prod_meta (given (params_prod_meta params))).

(** The part of the object [map_io] reads. *)
Definition as_module (self : YosysObject) : YosysModule :=
  mkYosys (self_extra_products self).

(** The separator joined between the elements of a list of strings; any
    other element is a [TypeError]. *)
Fixpoint join_space (l : list Value) : res pystr :=
  match l with
  | [] => Ok []
  | VStr s :: l' =>
      match l' with
      | [] => Ok s
      | _ => do r <- join_space l'; Ok (s ++ str " " ++ r)
      end
  | _ => Raise TypeError
  end.

(** The dict comprehension of [execute] over [yosys_tcl_env.items()]. *)
Fixpoint tcl_env_items (d : Dict) : res Dict :=
  match d with
  | [] => Ok []
  | (key, val) :: d' =>
      match val with
      | VNone => tcl_env_items d'
      | VList l =>
          do j <- join_space l; do r <- tcl_env_items d'; Ok ((key, VStr j) :: r)
      | _ => do r <- tcl_env_items d'; Ok ((key, val) :: r)
      end
  end.

(** The argument of [env.update] in [execute]. A value that is true but no
    dict has no [items]. *)
Definition tcl_env_update (yosys_tcl_env : Value) : out Dict :=
  if truthy yosys_tcl_env then
    match yosys_tcl_env with
    | VDict d =>
        match tcl_env_items d with
        | Ok r => Done r
        | Raise e => Fail (Builtin e)
        end
    | _ => Fail AttributeError
    end
  else Done [].

(** [env = environ.copy()] followed by [env.update(...)]. *)
Definition execute_env (environ : list (pystr * pystr)) (yosys_tcl_env : Value)
  : out Dict :=
  out_bind (tcl_env_update yosys_tcl_env) (fun u =>
  Done (dict_merge (map (fun kv => (fst kv, VStr (snd kv))) environ) u)).

(** Whether [extra] is a required product with base name [key]. *)
Definition is_required_extra (key extra : pystr) : bool :=
  match decompose_depname extra with
  | Ok (name, spec) => pystr_eqb spec q_req && pystr_eqb name key
  | Raise _ => false
  end.

(* ================================================================== *)
(** * Properties *)

(* ------------------------------------------------------------------ *)
(** ** Strings *)

Lemma pystr_eqb_refl (a : pystr) : pystr_eqb a a = true.
Proof.
  induction a as [|c a IH]; simpl; [reflexivity|].
  now rewrite Ascii.eqb_refl, IH.
Qed.

Lemma pystr_eqb_eq (a b : pystr) : pystr_eqb a b = true <-> a = b.
Proof.
  split.
  - revert b; induction a as [|x a IH]; intros [|y b] H; simpl in H;
      try discriminate; [reflexivity|].
    apply andb_true_iff in H as [Hxy Hab].
    apply Ascii.eqb_eq in Hxy. apply IH in Hab. now subst.
  - intros ->. apply pystr_eqb_refl.
Qed.

Lemma pystr_eqb_neq (a b : pystr) : pystr_eqb a b = false <-> a <> b.
Proof.
  split.
  - intros H E. apply pystr_eqb_eq in E. congruence.
  - intros H. destruct (pystr_eqb a b) eqn:E; [|reflexivity].
    apply pystr_eqb_eq in E. contradiction.
Qed.

(* ------------------------------------------------------------------ *)
(** ** Dependency qualifiers *)

Lemma getitem_last {A : Type} (l : list A) (c : A) :
  py_getitem (l ++ [c]) (Z.of_nat (length (l ++ [c])) - 1) = Ok c.
Proof.
  unfold py_getitem. rewrite length_app. simpl.
  replace (Z.of_nat (length l + 1) - 1)%Z with (Z.of_nat (length l)) by lia.
  destruct (Z.ltb_spec (Z.of_nat (length l)) 0); [lia|].
  destruct (Z.ltb_spec (Z.of_nat (length l)) 0); [lia|].
  destruct (Z.leb_spec (Z.of_nat (length l + 1)) (Z.of_nat (length l))); [lia|].
  simpl. rewrite Nat2Z.id, nth_error_app2 by lia.
  now rewrite Nat.sub_diag.
Qed.

Lemma slice_to_last {A : Type} (l : list A) (c : A) :
  py_slice_to (l ++ [c]) (Z.of_nat (length (l ++ [c])) - 1) = l.
Proof.
  unfold py_slice_to. rewrite length_app. simpl.
  replace (Z.of_nat (length l + 1) - 1)%Z with (Z.of_nat (length l)) by lia.
  destruct (Z.ltb_spec (Z.of_nat (length l)) 0); [lia|].
  rewrite Nat2Z.id, firstn_app, Nat.sub_diag, firstn_all. simpl.
  apply app_nil_r.
Qed.

(** What [decompose_depname] returns on a name with last character [c]. *)
Lemma decompose_snoc (l : pystr) (c : ascii) :
  decompose_depname (l ++ [c]) =
  Ok (if Ascii.eqb c "?" then (l, q_maybe)
      else if Ascii.eqb c "!" then (l, q_demand)
      else (l ++ [c], q_req)).
Proof.
  unfold decompose_depname. rewrite getitem_last. simpl bind.
  destruct (Ascii.eqb c "?"); [now rewrite slice_to_last|].
  destruct (Ascii.eqb c "!"); [now rewrite slice_to_last|].
  reflexivity.
Qed.

Lemma decompose_nil : decompose_depname [] = Raise IndexError.
Proof. reflexivity. Qed.

Lemma plain_base_snoc (b : pystr) :
  plain_base b = true ->
  exists l c, b = l ++ [c] /\ Ascii.eqb c "?" = false /\ Ascii.eqb c "!" = false.
Proof.
  unfold plain_base. intros H.
  destruct (rev b) as [|c r] eqn:E; [discriminate|].
  apply andb_true_iff in H as [H1 H2].
  apply negb_true_iff in H1, H2.
  exists (rev r), c. repeat split; trivial.
  rewrite <- (rev_involutive b), E. reflexivity.
Qed.

Lemma decompose_plain (b : pystr) :
  plain_base b = true -> decompose_depname b = Ok (b, q_req).
Proof.
  intros H. apply plain_base_snoc in H as (l & c & -> & H1 & H2).
  now rewrite decompose_snoc, H1, H2.
Qed.

(** On a plain base [with_qualifier] appends the marker of the tag. *)
Lemma with_qualifier_plain (b : pystr) :
  plain_base b = true ->
  with_qualifier b q_req = Ok (Some b)
  /\ with_qualifier b q_maybe = Ok (Some (b ++ str "?"))
  /\ with_qualifier b q_demand = Ok (Some (b ++ str "!")).
Proof.
  intros H. unfold with_qualifier. rewrite (decompose_plain _ H).
  repeat split.
Qed.

Lemma decompose_cases (name b q : pystr) :
  decompose_depname name = Ok (b, q) ->
  (q = q_req /\ name = b)
  \/ (q = q_maybe /\ name = b ++ str "?")
  \/ (q = q_demand /\ name = b ++ str "!").
Proof.
  destruct (rev name) as [|c r] eqn:E.
  - apply (f_equal (@rev ascii)) in E. rewrite rev_involutive in E.
    subst name. discriminate.
  - assert (Hn : name = rev r ++ [c])
      by (rewrite <- (rev_involutive name), E; reflexivity).
    rewrite Hn, decompose_snoc.
    destruct (Ascii.eqb c "?") eqn:E1.
    + apply Ascii.eqb_eq in E1. subst c. intros [= <- <-]. right. left. now split.
    + destruct (Ascii.eqb c "!") eqn:E2.
      * apply Ascii.eqb_eq in E2. subst c. intros [= <- <-]. right. right. now split.
      * intros [= <- <-]. left. now split.
Qed.

(** C1 (amended). For every name whose base, as [decompose_depname] returns
    it, is not empty and does not itself end in a marker: recomposing the
    base with the qualifier found gives the name back, and for each of the
    three qualifiers [with_qualifier] on that base gives a name that
    decomposes into the base and that qualifier. The three examples of the
    name clk are part of the statement. *)
Theorem decompose_with_qualifier_inverse (name b q : pystr) :
  decompose_depname name = Ok (b, q) ->
  plain_base b = true ->
  with_qualifier b q = Ok (Some name)
  /\ recompose name = Ok (Some name)
  /\ (forall q', In q' qualifiers ->
        exists n', with_qualifier b q' = Ok (Some n')
                   /\ decompose_depname n' = Ok (b, q'))
  /\ decompose_depname (str "clk") = Ok (str "clk", q_req)
  /\ decompose_depname (str "clk?") = Ok (str "clk", q_maybe)
  /\ decompose_depname (str "clk!") = Ok (str "clk", q_demand).
Proof.
  intros Hd Hb.
  destruct (with_qualifier_plain _ Hb) as (Wr & Wm & Wd).
  assert (Hw : with_qualifier b q = Ok (Some name)).
  { destruct (decompose_cases _ Hd) as [[-> ->]|[[-> ->]|[-> ->]]]; assumption. }
  split; [exact Hw|]. split.
  { unfold recompose. rewrite Hd. exact Hw. }
  split; [|repeat split].
  intros q' Hq'. simpl in Hq'.
  destruct Hq' as [<-|[<-|[<-|[]]]].
  - exists b. split; [exact Wr|]. now apply decompose_plain.
  - exists (b ++ str "?"). split; [exact Wm|]. apply (decompose_snoc b "?").
  - exists (b ++ str "!"). split; [exact Wd|]. apply (decompose_snoc b "!").
Qed.

Lemma decompose_with_qualifier_inverse_witness :
  decompose_depname (str "clk?") = Ok (str "clk", q_maybe)
  /\ plain_base (str "clk") = true
  /\ with_qualifier (str "clk") q_maybe = Ok (Some (str "clk?")).
Proof.
  split; [reflexivity|]. split; [reflexivity|].
  apply (@decompose_with_qualifier_inverse (str "clk?") (str "clk") q_maybe);
    reflexivity.
Defined.

(** C1 as stated fails: the name a?? decomposes into the base a? and the
    optional qualifier, and [with_qualifier] strips the base again before it
    appends the marker, so the result is a? and not a??. *)
Lemma recompose_double_marker :
  decompose_depname (str "a??") = Ok (str "a?", q_maybe)
  /\ with_qualifier (str "a?") q_maybe = Ok (Some (str "a?"))
  /\ recompose (str "a??") <> Ok (Some (str "a??")).
Proof.
  split; [reflexivity|]. split; [reflexivity|]. discriminate.
Qed.

(* ------------------------------------------------------------------ *)
(** ** The scan for placeholders *)

Lemma match_name_sound (s n r : pystr) :
  match_name s = Some (n, r) -> s = n ++ "}"%char :: r /\ name_chars n = true.
Proof.
  revert n r; induction s as [|c s IH]; intros n r H; simpl in H; [discriminate|].
  destruct (Ascii.eqb c "}") eqn:Ec.
  - apply Ascii.eqb_eq in Ec. subst c. injection H as <- <-. now split.
  - destruct (name_char c) eqn:Hc; [|discriminate].
    destruct (match_name s) as [[n' r']|]; [|discriminate].
    injection H as <- <-. destruct (IH _ _ eq_refl) as [-> Hn].
    split; [reflexivity|]. unfold name_chars in *. simpl. now rewrite Hc, Hn.
Qed.

Lemma match_name_complete (n post : pystr) :
  name_chars n = true -> match_name (n ++ "}"%char :: post) = Some (n, post).
Proof.
  induction n as [|c n IH]; intros H; simpl in *; [reflexivity|].
  apply andb_true_iff in H as [Hc Hn].
  assert (Ec : Ascii.eqb c "}" = false).
  { unfold name_char in Hc. apply negb_true_iff in Hc.
    apply orb_false_iff in Hc as [_ Hc]. exact Hc. }
  now rewrite Ec, Hc, (IH Hn).
Qed.

Lemma match_here_sound (s n r : pystr) :
  match_here s = Some (n, r) ->
  s = placeholder n ++ r /\ name_chars n = true.
Proof.
  destruct s as [|c1 [|c2 s]]; simpl; try discriminate.
  destruct (Ascii.eqb c1 "$") eqn:E1; [|discriminate].
  destruct (Ascii.eqb c2 "{") eqn:E2; [|discriminate]. simpl.
  apply Ascii.eqb_eq in E1, E2. subst. intros H.
  apply match_name_sound in H as [-> Hn]. split; [|exact Hn].
  unfold placeholder. simpl. now rewrite <- app_assoc.
Qed.

Lemma match_here_placeholder (n post : pystr) :
  name_chars n = true -> match_here (placeholder n ++ post) = Some (n, post).
Proof.
  intros H. unfold placeholder. simpl. rewrite <- app_assoc. simpl.
  now apply match_name_complete.
Qed.

Lemma placeholder_length (n : pystr) : length (placeholder n) = 3 + length n.
Proof. unfold placeholder. simpl. rewrite length_app. simpl. lia. Qed.

(** A dollar sign ends every attempt that is under way. *)
Lemma match_name_app_dollar (x rest : pystr) :
  match_name (x ++ "$"%char :: rest) =
  match match_name x with
  | Some (n, r) => Some (n, r ++ "$"%char :: rest)
  | None => None
  end.
Proof.
  induction x as [|c x IH]; simpl; [reflexivity|].
  destruct (Ascii.eqb c "}"); [reflexivity|].
  destruct (name_char c); [|reflexivity].
  rewrite IH. now destruct (match_name x) as [[n r]|].
Qed.

Lemma match_here_app_dollar (c : ascii) (x rest : pystr) :
  match_here ((c :: x) ++ "$"%char :: rest) =
  match match_here (c :: x) with
  | Some (n, r) => Some (n, r ++ "$"%char :: rest)
  | None => None
  end.
Proof.
  destruct x as [|c2 x]; simpl.
  - destruct (Ascii.eqb c "$"); reflexivity.
  - destruct (Ascii.eqb c "$" && Ascii.eqb c2 "{"); [|reflexivity].
    apply match_name_app_dollar.
Qed.

Lemma finditer_from_cons (f pos : nat) (c : ascii) (s : pystr) :
  finditer_from (S f) pos (c :: s) =
  match match_here (c :: s) with
  | Some (n, r) =>
      mkMatch pos (pos + (3 + length n)) n
      :: finditer_from f (pos + (3 + length n)) r
  | None => finditer_from f (S pos) s
  end.
Proof. reflexivity. Qed.

(** More fuel than characters changes nothing. *)
Lemma finditer_from_fuel (f1 f2 pos : nat) (s : pystr) :
  length s <= f1 -> length s <= f2 ->
  finditer_from f1 pos s = finditer_from f2 pos s.
Proof.
  revert f2 pos s. induction f1 as [|f1 IH]; intros f2 pos s H1 H2.
  - destruct s; [|simpl in H1; lia]. now destruct f2.
  - destruct s as [|c s]; [now destruct f2|].
    destruct f2 as [|f2]; [simpl in H2; lia|].
    simpl in H1, H2. cbn [finditer_from].
    destruct (match_here (c :: s)) as [[n r]|] eqn:E.
    + apply match_here_sound in E as [E _].
      apply (f_equal (@length ascii)) in E.
      rewrite length_app, placeholder_length in E. simpl in E.
      f_equal. apply IH; lia.
    + apply IH; lia.
Qed.

Lemma finditer_from_shift (f pos : nat) (s : pystr) :
  finditer_from f pos s = map (shift pos) (finditer_from f 0 s).
Proof.
  revert pos s. induction f as [|f IH]; intros pos s; [reflexivity|].
  destruct s as [|c s]; [reflexivity|]. cbn [finditer_from].
  destruct (match_here (c :: s)) as [[n r]|].
  - cbn [map]. f_equal.
    + unfold shift. simpl. f_equal. lia.
    + rewrite (IH (pos + (3 + length n))), (IH (0 + (3 + length n))).
      rewrite map_map. apply map_ext. intros m. unfold shift. simpl.
      f_equal; lia.
  - rewrite (IH (S pos)), (IH 1). rewrite map_map. apply map_ext.
    intros m. unfold shift. simpl. f_equal; lia.
Qed.

(** The scan of a text that goes on with a dollar sign: the matches of the
    text, then those found from the dollar sign on. *)
Lemma finditer_from_app_dollar (f1 f f2 pos : nat) (x rest : pystr) :
  length x <= f1 ->
  length (x ++ "$"%char :: rest) <= f ->
  length ("$"%char :: rest) <= f2 ->
  finditer_from f pos (x ++ "$"%char :: rest) =
  finditer_from f1 pos x ++ finditer_from f2 (pos + length x) ("$"%char :: rest).
Proof.
  revert f pos x. induction f1 as [|f1 IH]; intros f pos x H1 H H2.
  - destruct x; [|simpl in H1; lia]. simpl app. rewrite Nat.add_0_r.
    apply finditer_from_fuel; [exact H|exact H2].
  - destruct x as [|c x].
    + simpl app. rewrite Nat.add_0_r. apply finditer_from_fuel; [exact H|exact H2].
    + destruct f as [|f]; [simpl in H; lia|].
      assert (Hm := match_here_app_dollar c x rest).
      rewrite <- app_comm_cons in Hm |- *.
      rewrite !finditer_from_cons, Hm. clear Hm.
      rewrite length_app in H.
      cbn [length] in H1, H |- *.
      destruct (match_here (c :: x)) as [[n r]|] eqn:E.
      * apply match_here_sound in E as [E _].
        assert (L : length (c :: x) = 3 + length n + length r).
        { rewrite E, length_app, placeholder_length. reflexivity. }
        cbn [length] in L. rewrite <- app_comm_cons. f_equal.
        rewrite (IH f (pos + (3 + length n)) r); [|lia| |exact H2].
        -- f_equal. f_equal. lia.
        -- rewrite length_app. cbn [length]. lia.
      * rewrite (IH f (S pos) x); [|lia| |exact H2].
        -- f_equal. f_equal. lia.
        -- rewrite length_app. cbn [length]. lia.
Qed.

Lemma finditer_from_placeholder (f pos : nat) (n post : pystr) :
  name_chars n = true ->
  length (placeholder n ++ post) <= f ->
  finditer_from f pos (placeholder n ++ post) =
  mkMatch pos (pos + (3 + length n)) n
  :: finditer_from (length post) (pos + (3 + length n)) post.
Proof.
  intros Hn Hf.
  pose proof (@match_here_placeholder n post Hn) as Hm.
  rewrite length_app, placeholder_length in Hf.
  remember (placeholder n ++ post) as s eqn:Es.
  destruct s as [|c t]; [discriminate Es|].
  destruct f as [|f]; [lia|].
  rewrite finditer_from_cons, Hm. f_equal.
  apply finditer_from_fuel; lia.
Qed.

(** The matches of a text around a placeholder: those of the text before,
    the placeholder, those of the text after. *)
Lemma finditer_placeholder (pre n post : pystr) :
  name_chars n = true ->
  finditer (pre ++ placeholder n ++ post) =
  finditer pre
  ++ mkMatch (length pre) (length pre + (3 + length n)) n
  :: map (shift (length pre + (3 + length n))) (finditer post).
Proof.
  intros Hn. unfold finditer.
  assert (E : placeholder n ++ post
              = "$"%char :: ("{"%char :: n ++ "}"%char :: post)).
  { unfold placeholder. simpl. now rewrite <- app_assoc. }
  rewrite E.
  rewrite (@finditer_from_app_dollar (length pre) _
             (length ("$"%char :: "{"%char :: n ++ "}"%char :: post)) 0 pre);
    [|lia|lia|lia].
  f_equal. rewrite <- E.
  rewrite (@finditer_from_placeholder _ _ n post Hn) by lia.
  f_equal. simpl plus. apply finditer_from_shift.
Qed.

(** *** Spans *)

Lemma asc_within_weaken (lo lo' hi : nat) (ms : list Match) :
  lo' <= lo -> asc_within lo hi ms -> asc_within lo' hi ms.
Proof.
  destruct ms as [|m ms]; simpl; [trivial|].
  intros H (H1 & H2 & H3 & H4). repeat split; trivial. lia.
Qed.

Lemma asc_within_starts (lo hi : nat) (ms : list Match) :
  asc_within lo hi ms -> forall x, In x ms -> lo <= m_start x.
Proof.
  revert lo. induction ms as [|m ms IH]; intros lo H x Hx; [destruct Hx|].
  destruct H as (H1 & H2 & H3 & H4). destruct Hx as [<-|Hx]; [exact H1|].
  specialize (IH _ H4 _ Hx). lia.
Qed.

Lemma finditer_from_asc (f pos : nat) (s : pystr) :
  asc_within pos (pos + length s) (finditer_from f pos s).
Proof.
  revert pos s. induction f as [|f IH]; intros pos s; [exact I|].
  destruct s as [|c s]; [exact I|]. rewrite finditer_from_cons.
  destruct (match_here (c :: s)) as [[n r]|] eqn:E.
  - apply match_here_sound in E as [E _]. rewrite E.
    rewrite length_app, placeholder_length. cbn [asc_within m_start m_end].
    repeat split; try lia.
    replace (pos + (3 + length n + length r))
      with (pos + (3 + length n) + length r) by lia.
    apply IH.
  - apply asc_within_weaken with (lo := S pos); [lia|].
    replace (pos + length (c :: s)) with (S pos + length s)
      by (cbn [length]; lia).
    apply IH.
Qed.

Lemma desc_below_snoc (n : nat) (l : list Match) (m : Match) :
  desc_below n l ->
  (forall x, In x l -> m_end m <= m_start x) ->
  m_start m <= m_end m -> m_end m <= n ->
  desc_below n (l ++ [m]).
Proof.
  revert n. induction l as [|x l IH]; intros n Hd Hall H1 H2.
  - simpl. repeat split; trivial.
  - destruct Hd as (Hx1 & Hx2 & Hd). simpl. repeat split; trivial.
    apply IH; trivial.
    + intros y Hy. apply Hall. now right.
    + apply Hall. now left.
Qed.

Lemma asc_within_rev (lo hi : nat) (ms : list Match) :
  asc_within lo hi ms -> desc_below hi (rev ms).
Proof.
  revert lo. induction ms as [|m ms IH]; intros lo H; [exact I|].
  destruct H as (H1 & H2 & H3 & H4). simpl.
  apply desc_below_snoc; trivial.
  - now apply IH with (lo := m_end m).
  - intros x Hx. apply in_rev in Hx. now apply (@asc_within_starts _ _ _ H4).
Qed.

Lemma finditer_desc (s : pystr) : desc_below (length s) (rev (finditer s)).
Proof.
  apply asc_within_rev with (lo := 0). apply (finditer_from_asc (length s) 0 s).
Qed.

Lemma desc_below_weaken (n n' : nat) (ms : list Match) :
  n <= n' -> desc_below n ms -> desc_below n' ms.
Proof.
  destruct ms as [|m ms]; simpl; [trivial|].
  intros H (H1 & H2 & H3). repeat split; trivial. lia.
Qed.

(** *** The loop over the matches *)

Section Loop.

Variable vals : Dict.
Variable final : bool.

Lemma fold_raise (ms : list Match) (e : exn) :
  fold_left (fun acc m => do s' <- acc; resolve_match vals final s' m)
            ms (Raise e) = Raise e.
Proof. induction ms as [|m ms IH]; simpl; [reflexivity|exact IH]. Qed.

Lemma resolve_loop_nil (s : Value) : resolve_loop vals final [] s = Ok s.
Proof. reflexivity. Qed.

Lemma resolve_loop_cons (m : Match) (ms : list Match) (s : Value) :
  resolve_loop vals final (m :: ms) s =
  do s' <- resolve_match vals final s m; resolve_loop vals final ms s'.
Proof.
  unfold resolve_loop. simpl.
  destruct (resolve_match vals final s m); simpl; [reflexivity|].
  apply fold_raise.
Qed.

Lemma resolve_loop_app (ms1 ms2 : list Match) (s : Value) :
  resolve_loop vals final (ms1 ++ ms2) s =
  do s' <- resolve_loop vals final ms1 s; resolve_loop vals final ms2 s'.
Proof.
  revert s. induction ms1 as [|m ms1 IH]; intros s; [reflexivity|].
  rewrite <- app_comm_cons, !resolve_loop_cons.
  destruct (resolve_match vals final s m); simpl; [apply IH|reflexivity].
Qed.

(** Once the working value is a list it stays one. *)
Lemma resolve_match_list_state (l : list Value) (m : Match) (v : Value) :
  resolve_match vals final (VList l) m = Ok v -> exists l', v = VList l'.
Proof.
  unfold resolve_match.
  destruct (negb (truthy _) && negb final); [intros [= <-]; now exists l|].
  destruct (if negb (truthy _) then _ else _) as [| | |x|x|x];
    try (intros [= <-]; now exists l).
  destruct (map_res _ x); simpl; [intros [= <-]; eauto|discriminate].
Qed.

Lemma resolve_loop_list_state (ms : list Match) (l : list Value) (v : Value) :
  resolve_loop vals final ms (VList l) = Ok v -> exists l', v = VList l'.
Proof.
  revert l. induction ms as [|m ms IH]; intros l.
  - intros [= <-]. now exists l.
  - rewrite resolve_loop_cons.
    destruct (resolve_match vals final (VList l) m) as [v'|] eqn:E;
      [|discriminate].
    apply resolve_match_list_state in E as [l' ->]. apply IH.
Qed.

(** On a string the turn gives a string, a list or an exception. *)
Lemma resolve_match_str_state (y : pystr) (m : Match) (v : Value) :
  resolve_match vals final (VStr y) m = Ok v ->
  (exists y', v = VStr y') \/ (exists l, v = VList l).
Proof.
  unfold resolve_match.
  destruct (negb (truthy _) && negb final); [intros [= <-]; eauto|].
  destruct (if negb (truthy _) then _ else _) as [| | |x|x|x];
    try (intros [= <-]; eauto).
  destruct (map_res _ x); simpl; [intros [= <-]; eauto|discriminate].
Qed.

Lemma resolve_loop_str_inv (m : Match) (ms : list Match) (y y' : pystr) :
  resolve_loop vals final (m :: ms) (VStr y) = Ok (VStr y') ->
  exists y1, resolve_match vals final (VStr y) m = Ok (VStr y1)
             /\ resolve_loop vals final ms (VStr y1) = Ok (VStr y').
Proof.
  rewrite resolve_loop_cons.
  destruct (resolve_match vals final (VStr y) m) as [v|] eqn:E;
    [|discriminate].
  simpl. intros H.
  destruct (@resolve_match_str_state _ _ _ E) as [[y1 ->]|[l ->]].
  - now exists y1.
  - apply resolve_loop_list_state in H as [l' H]. discriminate.
Qed.

(** A turn that ends in a string, seen [length x] characters further right
    in a string that starts with [x]. *)
Lemma resolve_match_shift (x y y1 : pystr) (m : Match) :
  resolve_match vals final (VStr y) m = Ok (VStr y1) ->
  resolve_match vals final (VStr (x ++ y)) (shift (length x) m)
  = Ok (VStr (x ++ y1)).
Proof.
  unfold resolve_match. cbn [shift m_group1 m_start m_end].
  destruct (negb (truthy _) && negb final); [now intros [= <-]|].
  destruct (if negb (truthy _) then _ else _) as [| | |v|v|v];
    try (now intros [= <-]).
  - cbn [splice]. intros [= <-]. f_equal. f_equal.
    rewrite firstn_app_2, skipn_app, skipn_all2 by lia.
    replace (length x + m_end m - length x) with (m_end m) by lia.
    now rewrite <- app_assoc.
  - destruct (map_res _ v); simpl; discriminate.
Qed.

Lemma resolve_loop_shift (x : pystr) (ms : list Match) (y y' : pystr) :
  resolve_loop vals final ms (VStr y) = Ok (VStr y') ->
  resolve_loop vals final (map (shift (length x)) ms) (VStr (x ++ y))
  = Ok (VStr (x ++ y')).
Proof.
  revert y. induction ms as [|m ms IH]; intros y H.
  - injection H as <-. reflexivity.
  - apply resolve_loop_str_inv in H as (y1 & H1 & H2).
    cbn [map]. rewrite resolve_loop_cons, (@resolve_match_shift x _ _ _ H1).
    simpl. now apply IH.
Qed.

(** A turn that ends in a string, seen in a longer string: what lies
    behind the end of the match is carried along. *)
Lemma resolve_match_prefix (y t y1 : pystr) (m : Match) :
  m_start m <= m_end m -> m_end m <= length y ->
  resolve_match vals final (VStr y) m = Ok (VStr y1) ->
  resolve_match vals final (VStr (y ++ t)) m = Ok (VStr (y1 ++ t))
  /\ m_start m <= length y1.
Proof.
  intros Hse He. unfold resolve_match.
  destruct (negb (truthy _) && negb final);
    [intros [= <-]; split; [reflexivity|lia]|].
  destruct (if negb (truthy _) then _ else _) as [| | |v|v|v];
    try (intros [= <-]; split; [reflexivity|lia]).
  - cbn [splice]. intros [= <-]. split.
    + f_equal. f_equal.
      rewrite firstn_app, skipn_app.
      replace (m_start m - length y) with 0 by lia.
      replace (m_end m - length y) with 0 by lia.
      simpl. now rewrite app_nil_r, <- !app_assoc.
    + rewrite length_app, length_firstn. lia.
  - destruct (map_res _ v); simpl; discriminate.
Qed.

Lemma resolve_loop_prefix (t : pystr) (ms : list Match) (y y' : pystr) :
  desc_below (length y) ms ->
  resolve_loop vals final ms (VStr y) = Ok (VStr y') ->
  resolve_loop vals final ms (VStr (y ++ t)) = Ok (VStr (y' ++ t)).
Proof.
  revert y. induction ms as [|m ms IH]; intros y Hd H.
  - injection H as <-. reflexivity.
  - destruct Hd as (Hse & He & Hd).
    apply resolve_loop_str_inv in H as (y1 & H1 & H2).
    destruct (@resolve_match_prefix _ t _ _ Hse He H1) as [H1' Hlen].
    rewrite resolve_loop_cons, H1'. simpl.
    apply IH; [|exact H2].
    now apply desc_below_weaken with (n := m_start m).
Qed.

End Loop.

(** *** A placeholder in its context *)

Lemma bind_ok {A B : Type} (a : A) (k : A -> res B) : bind (Ok a) k = k a.
Proof. reflexivity. Qed.

Lemma map_res_ext {A B : Type} (f g : A -> res B) (l : list A) :
  (forall a, f a = g a) -> map_res f l = map_res g l.
Proof.
  intros H. induction l as [|a l IH]; simpl; [reflexivity|].
  now rewrite H, IH.
Qed.

Lemma firstn_pre (pre rest : pystr) : firstn (length pre) (pre ++ rest) = pre.
Proof.
  rewrite firstn_app, Nat.sub_diag, firstn_all. simpl. apply app_nil_r.
Qed.

Lemma skipn_placeholder (pre n post : pystr) :
  skipn (length pre + (3 + length n)) (pre ++ placeholder n ++ post) = post.
Proof.
  rewrite app_assoc, skipn_app, skipn_all2.
  - rewrite length_app, placeholder_length.
    now replace (length pre + (3 + length n) - (length pre + (3 + length n)))
      with 0 by lia.
  - rewrite length_app, placeholder_length. lia.
Qed.

(** Splicing over the span of the placeholder. *)
Lemma splice_placeholder (pre n post : pystr) (v : Value) :
  splice (VStr (pre ++ placeholder n ++ post)) (length pre)
         (length pre + (3 + length n)) v
  = match v with
    | VStr y => Ok (VStr (pre ++ y ++ post))
    | _ => Raise TypeError
    end.
Proof.
  destruct v; try reflexivity. cbn [splice].
  now rewrite firstn_pre, skipn_placeholder.
Qed.

Section Placeholder.

Variable vals : Dict.
Variable final : bool.

(** The string is resolved from the right: first what follows the
    placeholder, then the placeholder, then what precedes it. *)
Lemma resolve_str_split (pre n post post' : pystr) :
  name_chars n = true ->
  resolve_str vals post final = Ok (VStr post') ->
  resolve_str vals (pre ++ placeholder n ++ post) final =
  do s1 <- resolve_match vals final (VStr (pre ++ placeholder n ++ post'))
                         (ph_match pre n);
  resolve_loop vals final (rev (finditer pre)) s1.
Proof.
  intros Hn Hpost. unfold resolve_str in *.
  rewrite (@finditer_placeholder pre n post Hn).
  rewrite rev_app_distr. cbn [rev]. rewrite <- map_rev.
  rewrite resolve_loop_app, resolve_loop_app.
  assert (Hx : length (pre ++ placeholder n) = length pre + (3 + length n))
    by (rewrite length_app, placeholder_length; reflexivity).
  rewrite <- Hx, app_assoc.
  rewrite (@resolve_loop_shift vals final (pre ++ placeholder n) _ _ _ Hpost).
  rewrite bind_ok, resolve_loop_cons, <- app_assoc, Hx.
  fold (ph_match pre n).
  destruct (resolve_match vals final _ (ph_match pre n)); [|reflexivity].
  now rewrite bind_ok, resolve_loop_nil, bind_ok.
Qed.

(** The turn of the loop at the placeholder itself. *)
Lemma resolve_match_placeholder (pre n post : pystr) :
  resolve_match vals final (VStr (pre ++ placeholder n ++ post))
                (ph_match pre n)
  = if substituted vals final (remove_qmarks n)
    then fill pre post (lookup vals (remove_qmarks n))
    else Ok (VStr (pre ++ placeholder n ++ post)).
Proof.
  unfold resolve_match, substituted, fill. cbn [ph_match m_group1 m_start m_end].
  destruct (lookup vals (remove_qmarks n)) as [|b|z|[|c y]|[|v l]|[|kv d]];
    cbn [truthy length Nat.eqb];
    try destruct b; try destruct (z =? 0)%Z; destruct final;
    cbn [negb andb]; rewrite ?splice_placeholder; try reflexivity;
    (erewrite map_res_ext; [reflexivity|]);
    intros a; apply splice_placeholder.
Qed.

(** A string without placeholders is its own resolution. *)
Lemma resolve_str_plain (s : pystr) :
  finditer s = [] -> resolve_str vals s final = Ok (VStr s).
Proof. intros H. unfold resolve_str. now rewrite H. Qed.

(** A placeholder whose key is unbound or bound to a false value, between
    texts that resolve to strings. *)
Lemma resolve_str_falsy (pre n post pre' post' : pystr) :
  name_chars n = true ->
  truthy (lookup vals (remove_qmarks n)) = false ->
  resolve_str vals pre final = Ok (VStr pre') ->
  resolve_str vals post final = Ok (VStr post') ->
  resolve_str vals (pre ++ placeholder n ++ post) final =
  Ok (VStr (if final then pre' ++ post' else pre' ++ placeholder n ++ post')).
Proof.
  intros Hn Hv Hpre Hpost.
  rewrite (@resolve_str_split pre n post post' Hn Hpost), resolve_match_placeholder.
  assert (Hs : substituted vals final (remove_qmarks n) = final).
  { unfold substituted.
    destruct (lookup vals (remove_qmarks n)) as [|b|z|[|c y]|[|v l]|d];
      try discriminate Hv; rewrite ?Hv; apply andb_true_r. }
  rewrite Hs. unfold fill. rewrite Hv. cbn [negb].
  destruct final; cbn [bind].
  - apply resolve_loop_prefix; [apply finditer_desc|exact Hpre].
  - apply resolve_loop_prefix; [apply finditer_desc|exact Hpre].
Qed.

End Placeholder.

(** *** Names and lookup keys *)

Lemma name_chars_app (a b : pystr) :
  name_chars (a ++ b) = name_chars a && name_chars b.
Proof. apply forallb_app. Qed.

Lemma name_chars_remove_qmarks (n : pystr) :
  name_chars n = true -> name_chars (remove_qmarks n) = true.
Proof.
  unfold name_chars, remove_qmarks. induction n as [|c n IH]; simpl; [trivial|].
  intros H. apply andb_true_iff in H as [Hc Hn].
  destruct (negb (Ascii.eqb c "?")); simpl; [rewrite Hc|]; auto.
Qed.

Lemma remove_qmarks_app (a b : pystr) :
  remove_qmarks (a ++ b) = remove_qmarks a ++ remove_qmarks b.
Proof. apply filter_app. Qed.

Lemma remove_qmarks_idem (n : pystr) :
  remove_qmarks (remove_qmarks n) = remove_qmarks n.
Proof.
  unfold remove_qmarks. induction n as [|c n IH]; simpl; [reflexivity|].
  destruct (negb (Ascii.eqb c "?")) eqn:E; simpl; [rewrite E|]; now rewrite ?IH.
Qed.

Lemma lookup_unbound (vals : Dict) (k : pystr) :
  dict_get k vals = None -> lookup vals k = VNone.
Proof. unfold lookup. now intros ->. Qed.

Lemma lookup_bound (vals : Dict) (k : pystr) (v : Value) :
  dict_get k vals = Some v -> lookup vals k = v.
Proof. unfold lookup. now intros ->. Qed.

Lemma map_res_fill_strs (pre post : pystr) (vs : list pystr) :
  map_res (fun ve => match ve with
                     | VStr y => Ok (VStr (pre ++ y ++ post))
                     | _ => Raise TypeError
                     end) (map VStr vs)
  = Ok (map (fun y => VStr (pre ++ y ++ post)) vs).
Proof.
  induction vs as [|y vs IH]; simpl; [reflexivity|]. now rewrite IH.
Qed.

(** A string with one placeholder: the placeholder is replaced, when it is,
    by what [fill] builds from the value under its lookup key. *)
Lemma resolve_str_single (vals : Dict) (final : bool) (pre n post : pystr) :
  name_chars n = true -> finditer pre = [] -> finditer post = [] ->
  resolve_str vals (pre ++ placeholder n ++ post) final =
  if substituted vals final (remove_qmarks n)
  then fill pre post (lookup vals (remove_qmarks n))
  else Ok (VStr (pre ++ placeholder n ++ post)).
Proof.
  intros Hn Hpre Hpost.
  rewrite (@resolve_str_split vals final pre n post post Hn
             (resolve_str_plain vals final post Hpost)).
  rewrite resolve_match_placeholder, Hpre. cbn [rev].
  now destruct (if substituted _ _ _ then _ else _).
Qed.

(** With [final] false the turn of the loop at a placeholder whose key is
    unbound or bound to a false value changes nothing, whatever the working
    value is: the string resolves as if the loop ran over the other matches
    only. *)
Lemma resolve_str_skips_falsy (vals : Dict) (pre n post : pystr) :
  name_chars n = true ->
  truthy (lookup vals (remove_qmarks n)) = false ->
  resolve_str vals (pre ++ placeholder n ++ post) false =
  resolve_loop vals false
    (rev (finditer pre
          ++ map (shift (length pre + (3 + length n))) (finditer post)))
    (VStr (pre ++ placeholder n ++ post)).
Proof.
  intros Hn Hv. unfold resolve_str.
  rewrite (@finditer_placeholder pre n post Hn).
  rewrite !rev_app_distr. cbn [rev].
  rewrite <- app_assoc, !resolve_loop_app.
  destruct (resolve_loop vals false (rev (map _ (finditer post))) _) as [s1|e];
    [|reflexivity].
  rewrite !bind_ok. cbn [app]. rewrite resolve_loop_cons.
  unfold resolve_match at 1. cbn [m_group1]. rewrite Hv. reflexivity.
Qed.

(* ------------------------------------------------------------------ *)
(** ** Claims on [resolve] *)

(** C3 (amended). A scalar string is a text, a placeholder whose lookup key
    (its name without question marks) is unbound, and a text. With [final]
    false the loop passes over the placeholder without touching the working
    value, whatever the two texts hold: the string resolves as if the loop
    ran over the other matches only. When the two texts themselves resolve
    to strings (no placeholder in them expands to a sequence), [resolve]
    returns the resolved texts around the untouched placeholder when
    [final] is false and around nothing when [final] is true. The two
    examples of the spec are part of the statement. *)
Theorem resolve_unbound_placeholder (vals : Dict) (pre n post : pystr) :
  name_chars n = true ->
  dict_get (remove_qmarks n) vals = None ->
  resolve vals (VStr (pre ++ placeholder n ++ post)) false =
    resolve_loop vals false
      (rev (finditer pre
            ++ map (shift (length pre + (3 + length n))) (finditer post)))
      (VStr (pre ++ placeholder n ++ post))
  /\ (forall (final : bool) (pre' post' : pystr),
        resolve_str vals pre final = Ok (VStr pre') ->
        resolve_str vals post final = Ok (VStr post') ->
        resolve vals (VStr (pre ++ placeholder n ++ post)) final =
        Ok (VStr (if final then pre' ++ post'
                  else pre' ++ placeholder n ++ post')))
  /\ resolve [] (VStr (str "a${b}c")) false = Ok (VStr (str "a${b}c"))
  /\ resolve [] (VStr (str "a${b}c")) true = Ok (VStr (str "ac")).
Proof.
  intros Hn Hk.
  assert (Hv : truthy (lookup vals (remove_qmarks n)) = false)
    by now rewrite (lookup_unbound _ _ Hk).
  split; [|split; [|split; reflexivity]].
  - cbn [resolve]. now apply resolve_str_skips_falsy.
  - intros final pre' post' Hpre Hpost. cbn [resolve].
    now apply resolve_str_falsy.
Qed.

Lemma resolve_unbound_placeholder_witness :
  resolve [] (VStr (str "x" ++ placeholder (str "b") ++ str "y")) true
  = Ok (VStr (str "x" ++ str "y"))
  /\ resolve [(str "b", VList [VStr (str "X"); VStr (str "Y")])]
             (VStr (str "<" ++ placeholder (str "x") ++ str "${b}")) false
     = Ok (VList [VStr (str "<${x}X"); VStr (str "<${x}Y")]).
Proof.
  split.
  - destruct (@resolve_unbound_placeholder [] (str "x") (str "b") (str "y")
                eq_refl eq_refl) as (_ & H & _).
    exact (H true (str "x") (str "y") eq_refl eq_refl).
  - destruct (@resolve_unbound_placeholder
                [(str "b", VList [VStr (str "X"); VStr (str "Y")])]
                (str "<") (str "x") (str "${b}") eq_refl eq_refl)
      as (H & _).
    exact H.
Defined.

(** C3 as stated fails. With [final] set, an unbound placeholder to the left
    of a placeholder bound to a sequence is not replaced by the empty
    string: the working value is a list by then and the call raises. And a
    name with a question mark inside can be unbound while its placeholder is
    replaced all the same, by the binding of the name without the mark. *)
Lemma resolve_unbound_left_of_sequence :
  let vals := [(str "b", VList [VStr (str "X"); VStr (str "Y")]);
               (str "ab", VStr (str "Z"))] in
  dict_get (str "x") vals = None
  /\ resolve vals (VStr (str "${x}${b}")) true = Raise TypeError
  /\ dict_get (str "a?b") vals = None
  /\ resolve vals (VStr (str "${a?b}")) false = Ok (VStr (str "Z")).
Proof. repeat split. Qed.

(** C4 (amended). A scalar string with exactly one placeholder, whose lookup
    key is bound to a sequence of N >= 1 strings, resolves to the sequence
    of the N strings obtained by putting each element in the place of the
    placeholder. The example of the spec is part of the statement. *)
Theorem resolve_sequence_placeholder
  (vals : Dict) (final : bool) (pre n post : pystr) (vs : list pystr) :
  name_chars n = true ->
  finditer pre = [] -> finditer post = [] ->
  dict_get (remove_qmarks n) vals = Some (VList (map VStr vs)) ->
  vs <> [] ->
  resolve vals (VStr (pre ++ placeholder n ++ post)) final =
    Ok (VList (map (fun ve => VStr (pre ++ ve ++ post)) vs))
  /\ length (map (fun ve => VStr (pre ++ ve ++ post)) vs) = length vs
  /\ resolve [(str "b", VList [VStr (str "X"); VStr (str "Y")])]
             (VStr (str "a${b}c")) false
     = Ok (VList [VStr (str "aXc"); VStr (str "aYc")]).
Proof.
  intros Hn Hpre Hpost Hk Hvs.
  split; [|split; [apply length_map|reflexivity]].
  cbn [resolve]. rewrite resolve_str_single by trivial.
  unfold substituted, fill. rewrite (lookup_bound _ _ Hk).
  destruct vs as [|y vs]; [contradiction|].
  cbn [map truthy length Nat.eqb negb].
  change (VStr y :: map VStr vs) with (map VStr (y :: vs)).
  now rewrite map_res_fill_strs.
Qed.

Lemma resolve_sequence_placeholder_witness :
  resolve [(str "b", VList (map VStr [str "X"; str "Y"]))]
          (VStr (str "a" ++ placeholder (str "b") ++ str "c")) false
  = Ok (VList (map (fun ve => VStr (str "a" ++ ve ++ str "c"))
                   [str "X"; str "Y"])).
Proof.
  apply (@resolve_sequence_placeholder
           [(str "b", VList (map VStr [str "X"; str "Y"]))] false
           (str "a") (str "b") (str "c") [str "X"; str "Y"]);
    try reflexivity. discriminate.
Defined.

(** C4 as stated fails for N = 0: the empty sequence is a false value, so
    the placeholder is treated as unbound and the result is a string, not
    the empty sequence. *)
Lemma resolve_empty_sequence :
  let vals := [(str "b", VList [])] in
  resolve vals (VStr (str "a${b}c")) false = Ok (VStr (str "a${b}c"))
  /\ resolve vals (VStr (str "a${b}c")) true = Ok (VStr (str "ac"))
  /\ resolve vals (VStr (str "a${b}c")) false <> Ok (VList []).
Proof. repeat split. discriminate. Qed.

(** C6 (amended). The lookup key of a placeholder is its name with every
    question mark deleted, wherever it stands. In a string with one
    placeholder that the loop replaces, the result is built from the value
    under that key, and the placeholder resolves as the one whose name has a
    further question mark at its end and as the one whose name has none. *)
Theorem placeholder_lookup_key
  (vals : Dict) (final : bool) (pre n post : pystr) :
  name_chars n = true ->
  finditer pre = [] -> finditer post = [] ->
  substituted vals final (remove_qmarks n) = true ->
  resolve vals (VStr (pre ++ placeholder n ++ post)) final
    = fill pre post (lookup vals (remove_qmarks n))
  /\ (forall y, lookup vals (remove_qmarks n) = VStr y ->
        resolve vals (VStr (pre ++ placeholder n ++ post)) final
        = Ok (VStr (pre ++ y ++ post)))
  /\ resolve vals (VStr (pre ++ placeholder (n ++ str "?") ++ post)) final
     = resolve vals (VStr (pre ++ placeholder n ++ post)) final
  /\ resolve vals (VStr (pre ++ placeholder (remove_qmarks n) ++ post)) final
     = resolve vals (VStr (pre ++ placeholder n ++ post)) final.
Proof.
  intros Hn Hpre Hpost Hs. cbn [resolve].
  assert (H1 : resolve_str vals (pre ++ placeholder n ++ post) final
               = fill pre post (lookup vals (remove_qmarks n))).
  { rewrite resolve_str_single by trivial. now rewrite Hs. }
  split; [exact H1|]. rewrite H1. split; [|split].
  - intros y Hy. rewrite Hy. unfold substituted in Hs. rewrite Hy in Hs.
    unfold fill. destruct y as [|c y]; reflexivity.
  - rewrite resolve_str_single; trivial.
    + rewrite remove_qmarks_app. cbn. rewrite app_nil_r. now rewrite Hs.
    + rewrite name_chars_app, Hn. reflexivity.
  - rewrite resolve_str_single; trivial.
    + rewrite remove_qmarks_idem. now rewrite Hs.
    + now apply name_chars_remove_qmarks.
Qed.

Lemma placeholder_lookup_key_witness :
  resolve [(str "ab", VStr (str "X"))]
          (VStr (str "<" ++ placeholder (str "a?b" ++ str "?") ++ str ">")) false
  = resolve [(str "ab", VStr (str "X"))]
            (VStr (str "<" ++ placeholder (str "a?b") ++ str ">")) false.
Proof.
  apply (@placeholder_lookup_key [(str "ab", VStr (str "X"))] false
           (str "<") (str "a?b") (str ">")); reflexivity.
Defined.

(** C6 as stated fails. A question mark inside the name is deleted too: the
    name a?b has no trailing marker and is not bound, yet its placeholder is
    replaced by the binding of ab. And for a name bound to the empty string
    the two spellings do not resolve to the same result when [final] is
    false: each is left as it is written. *)
Lemma lookup_key_inner_marker :
  let vals := [(str "ab", VStr (str "X")); (str "x", VStr [])] in
  dict_get (str "a?b") vals = None
  /\ resolve vals (VStr (str "${a?b}")) false = Ok (VStr (str "X"))
  /\ resolve vals (VStr (str "${x?}")) false
     <> resolve vals (VStr (str "${x}")) false.
Proof. repeat split. discriminate. Qed.

(** *** A false binding and no binding *)

Lemma lookup_unbind (k key : pystr) (vals : Dict) :
  lookup (unbind k vals) key =
  if pystr_eqb k key then VNone else lookup vals key.
Proof.
  unfold lookup, unbind. induction vals as [|[k' v'] vals IH]; simpl.
  - now destruct (pystr_eqb k key).
  - destruct (pystr_eqb k k') eqn:E1; simpl.
    + apply pystr_eqb_eq in E1. subst k'.
      destruct (pystr_eqb key k) eqn:E2.
      * apply pystr_eqb_eq in E2. subst key. now rewrite pystr_eqb_refl in *.
      * exact IH.
    + destruct (pystr_eqb key k') eqn:E2; [|exact IH].
      apply pystr_eqb_eq in E2. subst key. now rewrite E1.
Qed.

Section FalsyBinding.

Variable vals : Dict.
Variable k : pystr.
Variable v : Value.
Hypothesis Hk : dict_get k vals = Some v.
Hypothesis Hv : truthy v = false.

Lemma resolve_match_unbind (final : bool) (s : Value) (m : Match) :
  resolve_match vals final s m = resolve_match (unbind k vals) final s m.
Proof.
  unfold resolve_match. rewrite lookup_unbind.
  destruct (pystr_eqb k (remove_qmarks (m_group1 m))) eqn:E; [|reflexivity].
  apply pystr_eqb_eq in E. rewrite <- E, (lookup_bound _ _ Hk), Hv.
  reflexivity.
Qed.

Lemma resolve_str_unbind (s : pystr) (final : bool) :
  resolve_str vals s final = resolve_str (unbind k vals) s final.
Proof.
  unfold resolve_str, resolve_loop. generalize (Ok (VStr s)).
  induction (rev (finditer s)) as [|m ms IH]; intros acc; [reflexivity|].
  simpl. rewrite IH. f_equal. destruct acc; simpl; [|reflexivity].
  apply resolve_match_unbind.
Qed.

Lemma resolve_unbind : forall (s : Value) (final : bool),
  resolve vals s final = resolve (unbind k vals) s final.
Proof.
  fix IH 1. intros [| | |x|l|d] final; try reflexivity.
  - apply resolve_str_unbind.
  - cbn [resolve]. f_equal.
    induction l as [|a l IHl]; [reflexivity|].
    now rewrite (IH a false), IHl.
  - cbn [resolve]. f_equal.
    induction d as [|[key a] d IHd]; [reflexivity|].
    now rewrite (IH a false), IHd.
Qed.

End FalsyBinding.

(** C10. A name bound to a false value (the empty string, the empty
    sequence, and the like) is resolved exactly as if its binding were
    deleted; in a string with one placeholder of that name the text of the
    placeholder stays when [final] is false and gives way to the empty
    string when [final] is true. *)
Theorem falsy_binding_as_unbound (vals : Dict) (k : pystr) (v : Value) :
  dict_get k vals = Some v ->
  truthy v = false ->
  (forall s final, resolve vals s final = resolve (unbind k vals) s final)
  /\ (forall pre n post,
        name_chars n = true -> remove_qmarks n = k ->
        finditer pre = [] -> finditer post = [] ->
        resolve vals (VStr (pre ++ placeholder n ++ post)) false
          = Ok (VStr (pre ++ placeholder n ++ post))
        /\ resolve vals (VStr (pre ++ placeholder n ++ post)) true
           = Ok (VStr (pre ++ post))).
Proof.
  intros Hk Hv. split.
  - intros s final. now apply resolve_unbind with (v := v).
  - intros pre n post Hn <- Hpre Hpost. cbn [resolve].
    assert (Hl : truthy (lookup vals (remove_qmarks n)) = false)
      by now rewrite (lookup_bound _ _ Hk).
    split.
    + apply (@resolve_str_falsy vals false pre n post pre post); trivial;
        now apply resolve_str_plain.
    + apply (@resolve_str_falsy vals true pre n post pre post); trivial;
        now apply resolve_str_plain.
Qed.

Lemma falsy_binding_as_unbound_witness :
  resolve [(str "b", VStr [])] (VStr (str "a" ++ placeholder (str "b") ++ str "c"))
          false
  = Ok (VStr (str "a" ++ placeholder (str "b") ++ str "c"))
  /\ resolve [(str "b", VList [])] (VList [VStr (str "${b}")]) false
     = resolve (unbind (str "b") [(str "b", VList [])])
               (VList [VStr (str "${b}")]) false.
Proof.
  split.
  - apply (@falsy_binding_as_unbound [(str "b", VStr [])] (str "b") (VStr []));
      reflexivity.
  - apply (@falsy_binding_as_unbound [(str "b", VList [])] (str "b") (VList []));
      reflexivity.
Defined.

(** C5 (the code departs from the claim). On a list, and on a dict,
    [resolve] ignores [final]: the elements are resolved with [final] at its
    default, so an unbound placeholder in an element stays although the same
    string given alone with [final] set loses it. The order of the elements
    is kept. *)
Theorem resolve_list_ignores_final :
  (forall vals l, resolve vals (VList l) true = resolve vals (VList l) false)
  /\ (forall vals d, resolve vals (VDict d) true = resolve vals (VDict d) false)
  /\ resolve [] (VList [VStr (str "a${b}c")]) true
     = Ok (VList [VStr (str "a${b}c")])
  /\ resolve [] (VStr (str "a${b}c")) true = Ok (VStr (str "ac")).
Proof. repeat split. Qed.

(* ------------------------------------------------------------------ *)
(** ** Dicts, the heap and [add_values] *)

Lemma dict_get_set_same {V : Type} (k : pystr) (v : V) (d : list (pystr * V)) :
  dict_get k (dict_set k v d) = Some v.
Proof.
  induction d as [|[k' v'] d IH]; simpl.
  - now rewrite pystr_eqb_refl.
  - destruct (pystr_eqb k k') eqn:E; simpl; rewrite E; [reflexivity|exact IH].
Qed.

Lemma dict_get_set_other {V : Type} (k key : pystr) (v : V)
  (d : list (pystr * V)) :
  pystr_eqb key k = false -> dict_get key (dict_set k v d) = dict_get key d.
Proof.
  intros H. induction d as [|[k' v'] d IH]; simpl.
  - now rewrite H.
  - destruct (pystr_eqb k k') eqn:E; simpl.
    + apply pystr_eqb_eq in E. subst k'. now rewrite H.
    + now rewrite IH.
Qed.

Lemma dict_get_absent {V : Type} (k : pystr) (d : list (pystr * V)) :
  ~ In k (dict_keys d) -> dict_get k d = None.
Proof.
  induction d as [|[k' v'] d IH]; simpl; [reflexivity|]. intros H.
  destruct (pystr_eqb k k') eqn:E.
  - apply pystr_eqb_eq in E. subst k'. exfalso. apply H. now left.
  - apply IH. intros Hin. apply H. now right.
Qed.

(** After [d.update(d2)] a key has the value [d2] gives it, or else the one
    it had. *)
Lemma dict_get_merge {V : Type} (key : pystr) (d2 d : list (pystr * V)) :
  NoDup (dict_keys d2) ->
  dict_get key (dict_merge d d2) =
  match dict_get key d2 with
  | Some x => Some x
  | None => dict_get key d
  end.
Proof.
  unfold dict_merge. revert d.
  induction d2 as [|[k v] d2 IH]; intros d Hnd; [reflexivity|].
  apply NoDup_cons_iff in Hnd as [Hk Hnd]. cbn [fold_left fst snd].
  rewrite (IH _ Hnd). cbn [dict_get].
  destruct (pystr_eqb key k) eqn:E.
  - apply pystr_eqb_eq in E. subst key.
    now rewrite (dict_get_absent k d2 Hk), dict_get_set_same.
  - destruct (dict_get key d2); [reflexivity|].
    now apply dict_get_set_other.
Qed.

(** [resolve] on a dict returns a dict with the same keys in the same order,
    or raises. *)
Lemma resolve_dict_keys (vals : Dict) (d : Dict) (final : bool) (r : Value) :
  resolve vals (VDict d) final = Ok r ->
  exists d', r = VDict d' /\ dict_keys d' = dict_keys d.
Proof.
  cbn [resolve].
  match goal with |- bind (?go d) _ = _ -> _ => set (go_dict := go) end.
  assert (H : forall d0 d', go_dict d0 = Ok d' -> dict_keys d' = dict_keys d0).
  { induction d0 as [|[k v] d0 IH]; intros d'; cbn.
    - now intros [= <-].
    - destruct (resolve vals v false); cbn; [|discriminate].
      destruct (go_dict d0) as [t|]; cbn; [|discriminate].
      intros [= <-]. cbn. f_equal. now apply IH. }
  destruct (go_dict d) as [d'|] eqn:E; cbn; [|discriminate].
  intros [= <-]. exists d'. split; [reflexivity|now apply H].
Qed.

Lemma heap_get_set_same (a : nat) (d : Dict) (h : Heap) :
  a < length h -> heap_get a (heap_set a d h) = d.
Proof.
  revert a. induction h as [|x h IH]; intros a H; [simpl in H; lia|].
  destruct a as [|a]; [reflexivity|]. simpl in H.
  unfold heap_get in *. cbn. apply IH. lia.
Qed.


(** [add_values] with one item whose key is bound to a dict. *)
Lemma add_value_on_dict (vals : Dict) (k : pystr) (dold : Dict) (v : Value) :
  dict_get k vals = Some (VDict dold) ->
  add_values_dict vals [(k, v)] =
  match resolve vals v false with
  | Ok r =>
      (dict_set k (VDict (fst (py_dict_update dold r))) vals,
       snd (py_dict_update dold r))
  | Raise e => (vals, Raise e)
  end.
Proof.
  intros H. cbn [add_values_dict]. unfold add_value. rewrite H.
  destruct (resolve vals v false) as [r|e]; [|reflexivity].
  destruct (py_dict_update dold r) as [d' [[]|e]]; reflexivity.
Qed.





(** C9. Two environments built without an argument hold the same dict
    object: what [add_values] stores through one of them is what [resolve]
    reads through the other. Two environments built on two dict objects of
    their own do not see each other's bindings. *)
Theorem default_envs_share_store
  (h : Heap) (items : Dict) (s : Value) (final : bool) :
  default_values < length h ->
  let e1 := init None in
  let e2 := init None in
  env_resolve e2 s final (fst (add_values e1 items h))
    = resolve (fst (add_values_dict (heap_get default_values h) items)) s final
  /\ env_resolve e2 (VStr (str "${b}")) false initial_heap
     = Ok (VStr (str "${b}"))
  /\ env_resolve e2 (VStr (str "${b}")) false
       (fst (add_values e1 [(str "b", VStr (str "X"))] initial_heap))
     = Ok (VStr (str "X"))
  /\ (let (a1, h1) := new_dict [] initial_heap in
      let (a2, h2) := new_dict [] h1 in
      env_resolve (init (Some a2)) (VStr (str "${b}")) false
        (fst (add_values (init (Some a1)) [(str "b", VStr (str "X"))] h2))
      = Ok (VStr (str "${b}"))).
Proof.
  intros Hlt e1 e2. split; [|repeat split].
  unfold env_resolve, add_values. cbn [e1 e2 init values].
  destruct (add_values_dict (heap_get default_values h) items) as [d out].
  cbn [fst]. now rewrite heap_get_set_same.
Qed.

Lemma default_envs_share_store_witness :
  env_resolve (init None) (VStr (str "${k}")) true
    (fst (add_values (init None) [(str "k", VStr (str "v"))] initial_heap))
  = resolve (fst (add_values_dict (heap_get default_values initial_heap)
                                  [(str "k", VStr (str "v"))]))
            (VStr (str "${k}")) true.
Proof.
  apply (@default_envs_share_store initial_heap [(str "k", VStr (str "v"))]
           (VStr (str "${k}")) true).
  unfold default_values, initial_heap. simpl. lia.
Defined.

(* ------------------------------------------------------------------ *)
(** ** The process execution wrapper *)

(** C7 (the code departs from the claim). [sub] returns a value exactly
    when the child's exit code is zero, and the value is the captured
    standard output. On any other exit code it prints the line that names
    the command and then decodes what it is about to echo: when the
    captured bytes are valid UTF-8 it prints the standard output if and only
    if [print_stdout_on_fail] is set, then the standard error, and ends the
    run with the child's exit code; when the standard error is not valid
    UTF-8 it raises [UnicodeDecodeError] with the standard error not echoed
    and the run not ended by [exit], and likewise for a standard output
    that is to be echoed. A child that exits with code 3 and writes the
    single byte 255 to its standard error is such a case. *)
Theorem sub_decodes_before_exit
  (EnvT CwdT : Type)
  (run : list pystr -> option EnvT -> option CwdT -> CompletedProcess)
  (arg0 : pystr) (rest : list pystr) (env : option EnvT) (cwd : option CwdT)
  (print_stdout_on_fail : bool) :
  let args := arg0 :: rest in
  let out := run args env cwd in
  let printed := fst (sub run args env cwd print_stdout_on_fail) in
  let outcome := snd (sub run args env cwd print_stdout_on_fail) in
  let line1 := str "[ERROR]: " ++ arg0 ++ str " non-zero return code." ++ nl in
  let echoed_stdout :=
    if print_stdout_on_fail
    then [str "stdout:" ++ nl ++ stdout out ++ nl ++ nl]
    else [] in
  ((exists v, outcome = Ok v) <-> returncode out = 0%Z)
  /\ (returncode out = 0%Z -> outcome = Ok (stdout out) /\ printed = [])
  /\ (returncode out <> 0%Z ->
      (print_stdout_on_fail = true -> valid_utf8 (stdout out) = true) ->
      valid_utf8 (stderr out) = true ->
      outcome = Raise (SystemExit (returncode out))
      /\ printed =
         [line1] ++ echoed_stdout
         ++ [str "stderr:" ++ nl ++ stderr out ++ nl ++ nl])
  /\ (returncode out <> 0%Z ->
      (print_stdout_on_fail = true -> valid_utf8 (stdout out) = true) ->
      valid_utf8 (stderr out) = false ->
      outcome = Raise UnicodeDecodeError
      /\ printed = [line1] ++ echoed_stdout)
  /\ (returncode out <> 0%Z ->
      print_stdout_on_fail = true -> valid_utf8 (stdout out) = false ->
      outcome = Raise UnicodeDecodeError /\ printed = [line1])
  /\ sub (fun (_ : list pystr) (_ _ : option unit) =>
            mkCompleted 3 [] ["255"%char])
         [str "yosys"] None None false
     = ([str "[ERROR]: yosys non-zero return code." ++ nl],
        Raise UnicodeDecodeError).
Proof.
  intros args out printed outcome line1 echoed_stdout.
  subst printed outcome echoed_stdout. unfold sub. fold args. fold out.
  destruct (Z.eqb_spec (returncode out) 0) as [E|E]; cbn [negb].
  - repeat split; try contradiction; trivial.
    intros _. now exists (stdout out).
  - unfold args at 1 2. cbn [py_getitem length]. fold line1. unfold decode.
    destruct print_stdout_on_fail;
      destruct (valid_utf8 (stdout out)) eqn:Vo;
      destruct (valid_utf8 (stderr out)) eqn:Ve;
      cbn [fst snd app];
      (split; [split; [intros [v Hv]; discriminate|contradiction]|]);
      (split; [contradiction|]);
      repeat split; intros; try reflexivity; try discriminate;
      try match goal with
          | H : true = true -> false = true |- _ =>
              specialize (H eq_refl); discriminate
          end.
Qed.

(* ------------------------------------------------------------------ *)
(** ** [map_io] of the yosys module *)

Section MapIOFacts.

Variable PathT : Type.
Variable Path : pystr -> PathT.
Variable path_div : PathT -> pystr -> PathT.
Variable path_parent : PathT -> PathT.
Variable path_str : PathT -> pystr.

Lemma load_ModuleRuntimeException :
  load_global (str "ModuleRuntimeException")
  = Raise (NameError (str "ModuleRuntimeException")).
Proof. reflexivity. Qed.

(** No run of the loop ends in the configuration error. *)
Lemma map_io_extras_never_configuration_error
  (top : PathT) (device : pystr) (extras : list pystr)
  (mapping : list (pystr * pystr)) (msg : pystr) :
  map_io_extras path_div path_parent path_str top device mapping extras
  <> Raise (ModuleRuntimeException msg).
Proof.
  revert mapping. induction extras as [|extra extras IH]; intros mapping;
    cbn [map_io_extras]; [discriminate|].
  destruct (decompose_depname extra) as [[name spec]|e] eqn:E; cbn [bind].
  - destruct (pystr_eqb spec q_maybe).
    + rewrite load_ModuleRuntimeException. discriminate.
    + destruct (pystr_eqb spec q_req); apply IH.
  - unfold decompose_depname in E.
    destruct (py_getitem extra _) as [c|e'] eqn:G; cbn [bind] in E.
    + discriminate.
    + injection E as <-. unfold py_getitem in G.
      destruct (_ || _)%bool; [injection G as <-; discriminate|].
      destruct (nth_error _ _); [discriminate|].
      injection G as <-. discriminate.
Qed.

End MapIOFacts.

(** C8 (the code departs from the claim). For an extra product with the
    optional qualifier [map_io] does not raise the configuration error that
    names the product: the name of that exception class is not bound in the
    module, so reading it raises a name error first, and no call of [map_io]
    ever ends in the configuration error. An extra product with the required
    qualifier is mapped to the device-prefixed path next to [top]. *)
Theorem map_io_optional_extra
  (PathT : Type) (Path : pystr -> PathT) (path_div : PathT -> pystr -> PathT)
  (path_parent : PathT -> PathT) (path_str : PathT -> pystr)
  (ctx : ModuleContext) :
  map_io Path path_div path_parent path_str (mkYosys [str "foo?"]) ctx
    = Raise (NameError (str "ModuleRuntimeException"))
  /\ (forall self msg,
        map_io Path path_div path_parent path_str self ctx
        <> Raise (ModuleRuntimeException msg))
  /\ (exists top,
        map_io Path path_div path_parent path_str (mkYosys [str "foo"]) ctx
        = Ok [(str "eblif", path_str top ++ str ".eblif");
              (str "fasm_extra", path_str top ++ str "_fasm_extra.fasm");
              (str "json", path_str top ++ str ".json");
              (str "synth_json", path_str top ++ str "_io.json");
              (str "foo",
               path_str (path_div (path_parent top)
                                  (values_device ctx ++ str "_foo.foo")))]).
Proof.
  split; [reflexivity|]. split.
  - intros self msg. unfold map_io.
    apply map_io_extras_never_configuration_error.
  - unfold map_io. eexists. cbn. unfold extra_path. reflexivity.
Qed.

(* ================================================================== *)
(** * Further properties of the code *)

(* ------------------------------------------------------------------ *)
(** ** Dependency names *)

(** X1. [decompose_depname] raises exactly on the empty name, with an
    [IndexError]. On every other name it returns a base and one of the
    three tags from which the name can be rebuilt: the name itself for
    required, the base and one question mark for optional, the base and one
    exclamation mark for demanded; the tag is required exactly when the
    name ends in neither marker. *)
Theorem decompose_depname_lossless (name : pystr) :
  (decompose_depname name = Raise IndexError <-> name = [])
  /\ (name <> [] ->
      exists b q,
        decompose_depname name = Ok (b, q)
        /\ ((q = q_req /\ name = b /\ plain_base name = true)
            \/ (q = q_maybe /\ name = b ++ str "?")
            \/ (q = q_demand /\ name = b ++ str "!"))).
Proof.
  split.
  - split; [|now intros ->].
    destruct (rev name) as [|c r] eqn:E.
    + intros _. apply (f_equal (@rev ascii)) in E.
      now rewrite rev_involutive in E.
    + assert (Hn : name = rev r ++ [c])
        by (rewrite <- (rev_involutive name), E; reflexivity).
      rewrite Hn, decompose_snoc. discriminate.
  - intros Hne. destruct (rev name) as [|c r] eqn:E.
    + apply (f_equal (@rev ascii)) in E. rewrite rev_involutive in E.
      contradiction.
    + assert (Hn : name = rev r ++ [c])
        by (rewrite <- (rev_involutive name), E; reflexivity).
      rewrite Hn, decompose_snoc.
      destruct (Ascii.eqb c "?") eqn:E1.
      * apply Ascii.eqb_eq in E1. subst c.
        exists (rev r), q_maybe. split; [reflexivity|]. right. left. now split.
      * destruct (Ascii.eqb c "!") eqn:E2.
        -- apply Ascii.eqb_eq in E2. subst c.
           exists (rev r), q_demand. split; [reflexivity|]. right. right.
           now split.
        -- exists (rev r ++ [c]), q_req. split; [reflexivity|]. left.
           repeat split. unfold plain_base.
           rewrite rev_app_distr. simpl. now rewrite E1, E2.
Qed.

(** X2. [with_qualifier] replaces the qualifier a name already has: for a
    base that is not empty and ends in no marker, qualifying it and then
    qualifying the result again gives what qualifying the base with the
    second tag gives. For a tag that is none of the three it returns [None]
    and raises nothing, whatever the name. *)
Theorem with_qualifier_requalifies (b q1 q2 : pystr) :
  plain_base b = true ->
  In q1 qualifiers -> In q2 qualifiers ->
  (exists n1 n2,
     with_qualifier b q1 = Ok (Some n1)
     /\ with_qualifier n1 q2 = Ok (Some n2)
     /\ with_qualifier b q2 = Ok (Some n2))
  /\ (forall name q, ~ In q qualifiers -> with_qualifier name q = Ok None).
Proof.
  intros Hb H1 H2. split.
  - destruct (with_qualifier_plain _ Hb) as (Wr & Wm & Wd).
    assert (Hd : exists n1, with_qualifier b q1 = Ok (Some n1)
                            /\ decompose_depname n1 = Ok (b, q1)).
    { simpl in H1. destruct H1 as [<-|[<-|[<-|[]]]].
      - exists b. split; [exact Wr|]. now apply decompose_plain.
      - exists (b ++ str "?"). split; [exact Wm|]. apply (decompose_snoc b "?").
      - exists (b ++ str "!"). split; [exact Wd|]. apply (decompose_snoc b "!"). }
    destruct Hd as (n1 & Hw & Hd). exists n1.
    simpl in H2. destruct H2 as [<-|[<-|[<-|[]]]].
    + exists b. split; [exact Hw|]. split; [|exact Wr].
      unfold with_qualifier. cbn. now rewrite Hd.
    + exists (b ++ str "?"). split; [exact Hw|]. split; [|exact Wm].
      unfold with_qualifier. cbn. now rewrite Hd.
    + exists (b ++ str "!"). split; [exact Hw|]. split; [|exact Wd].
      unfold with_qualifier. cbn. now rewrite Hd.
  - intros name q Hq. unfold with_qualifier.
    destruct (pystr_eqb q q_req) eqn:E1.
    { apply pystr_eqb_eq in E1. subst q. elim Hq. simpl. auto. }
    destruct (pystr_eqb q q_maybe) eqn:E2.
    { apply pystr_eqb_eq in E2. subst q. elim Hq. simpl. auto. }
    destruct (pystr_eqb q q_demand) eqn:E3; [|reflexivity].
    apply pystr_eqb_eq in E3. subst q. elim Hq. simpl. auto.
Qed.

Lemma with_qualifier_requalifies_witness :
  exists n1 n2,
    with_qualifier (str "clk") q_maybe = Ok (Some n1)
    /\ with_qualifier n1 q_demand = Ok (Some n2)
    /\ with_qualifier (str "clk") q_demand = Ok (Some n2).
Proof.
  apply (@with_qualifier_requalifies (str "clk") q_maybe q_demand).
  - reflexivity.
  - simpl. auto.
  - simpl. auto.
Defined.

(* ------------------------------------------------------------------ *)
(** ** [resolve] on whole values *)

Lemma resolve_loop_inert (vals : Dict) (ms : list Match) (s : Value) :
  (forall k, truthy (lookup vals k) = false) ->
  resolve_loop vals false ms s = Ok s.
Proof.
  intros H. induction ms as [|m ms IH]; [reflexivity|].
  rewrite resolve_loop_cons. unfold resolve_match at 1.
  rewrite H. cbn. exact IH.
Qed.

(** [resolve] on the elements of a list, and on the values of a dict, when
    each of them resolves to itself. *)
Lemma resolve_list_fixed (vals : Dict) (l : list Value) (final : bool) :
  Forall (fun v => resolve vals v false = Ok v) l ->
  resolve vals (VList l) final = Ok (VList l).
Proof.
  intros H. cbn [resolve].
  match goal with |- bind (?go l) _ = _ => set (go_list := go) end.
  assert (E : go_list l = Ok l).
  { induction H as [|v t Hv Ht IH]; [reflexivity|].
    cbn. rewrite Hv. cbn. now rewrite IH. }
  now rewrite E.
Qed.

Lemma resolve_dict_fixed (vals : Dict) (d : Dict) (final : bool) :
  Forall (fun kv => resolve vals (snd kv) false = Ok (snd kv)) d ->
  resolve vals (VDict d) final = Ok (VDict d).
Proof.
  intros H. cbn [resolve].
  match goal with |- bind (?go d) _ = _ => set (go_dict := go) end.
  assert (E : go_dict d = Ok d).
  { induction H as [|[k v] t Hv Ht IH]; [reflexivity|].
    cbn in Hv |- *. rewrite Hv. cbn. now rewrite IH. }
  now rewrite E.
Qed.

(** X3. When no key of the environment is bound to a true value, and so for
    the empty environment, [resolve] without [final] returns every value,
    whatever its nesting, as it is, and raises nothing. *)
Theorem resolve_inert (vals : Dict) :
  (forall k, truthy (lookup vals k) = false) ->
  forall s, resolve vals s false = Ok s.
Proof.
  intros H. fix IH 1. intros [| | |x|l|d]; try reflexivity.
  - cbn [resolve]. unfold resolve_str. now apply resolve_loop_inert.
  - apply resolve_list_fixed.
    induction l as [|a l IHl]; constructor; [apply IH|exact IHl].
  - apply resolve_dict_fixed.
    induction d as [|[k a] d IHd]; constructor; [apply IH|exact IHd].
Qed.

Lemma resolve_inert_witness :
  resolve [(str "a", VStr []); (str "b", VList [])]
          (VDict [(str "k", VList [VStr (str "${a}${b}${c}"); VInt 7])]) false
  = Ok (VDict [(str "k", VList [VStr (str "${a}${b}${c}"); VInt 7])]).
Proof.
  apply (@resolve_inert [(str "a", VStr []); (str "b", VList [])]).
  intros k. unfold lookup. cbn [dict_get].
  destruct (pystr_eqb k (str "a")); [reflexivity|].
  destruct (pystr_eqb k (str "b")); reflexivity.
Defined.

(** X4. A value none of whose strings holds a placeholder resolves to
    itself, in every environment and with either setting of [final]. *)
Theorem resolve_plain_value (vals : Dict) :
  forall (s : Value) (final : bool),
    plain_value s = true -> resolve vals s final = Ok s.
Proof.
  fix IH 1. intros [| | |x|l|d] final Hp; try reflexivity.
  - cbn [resolve]. apply resolve_str_plain. cbn in Hp.
    now destruct (finditer x).
  - apply resolve_list_fixed. cbn [plain_value] in Hp.
    induction l as [|a l IHl]; constructor.
    + apply IH. cbn in Hp. now apply andb_true_iff in Hp as [Ha _].
    + apply IHl. cbn in Hp. now apply andb_true_iff in Hp as [_ Hl].
  - apply resolve_dict_fixed. cbn [plain_value] in Hp.
    induction d as [|[k a] d IHd]; constructor.
    + apply IH. cbn in Hp. now apply andb_true_iff in Hp as [Ha _].
    + apply IHd. cbn in Hp. now apply andb_true_iff in Hp as [_ Hd].
Qed.

Lemma resolve_plain_value_witness :
  resolve [(str "x", VStr (str "X"))]
          (VList [VStr (str "$x {x} $ {x}"); VDict [(str "${x}", VNone)]]) true
  = Ok (VList [VStr (str "$x {x} $ {x}"); VDict [(str "${x}", VNone)]]).
Proof.
  apply (@resolve_plain_value [(str "x", VStr (str "X"))]). reflexivity.
Defined.

Lemma resolve_loop_str_state (vals : Dict) (final : bool) (ms : list Match)
  (y : pystr) (v : Value) :
  resolve_loop vals final ms (VStr y) = Ok v ->
  (exists y', v = VStr y') \/ (exists l, v = VList l).
Proof.
  revert y. induction ms as [|m ms IH]; intros y.
  - intros [= <-]. eauto.
  - rewrite resolve_loop_cons.
    destruct (resolve_match vals final (VStr y) m) as [v'|] eqn:E;
      [|discriminate].
    destruct (@resolve_match_str_state vals final _ _ _ E) as [[y1 ->]|[l ->]].
    + apply IH.
    + cbn. intros H. right. now apply resolve_loop_list_state in H.
Qed.

Lemma resolve_list_length (vals : Dict) (l : list Value) (final : bool)
  (r : Value) :
  resolve vals (VList l) final = Ok r ->
  exists l', r = VList l' /\ length l' = length l.
Proof.
  cbn [resolve].
  match goal with |- bind (?go l) _ = _ -> _ => set (go_list := go) end.
  assert (H : forall l0 l', go_list l0 = Ok l' -> length l' = length l0).
  { induction l0 as [|v l0 IH]; intros l'; cbn.
    - now intros [= <-].
    - destruct (resolve vals v false); cbn; [|discriminate].
      destruct (go_list l0) as [t|]; cbn; [|discriminate].
      intros [= <-]. cbn. f_equal. now apply IH. }
  destruct (go_list l) as [l'|] eqn:E; cbn; [|discriminate].
  intros [= <-]. exists l'. split; [reflexivity|now apply H].
Qed.

(** X5. What [resolve] returns has the shape of what it was given: a list
    gives a list of the same length, a dict a dict with the same keys in the
    same order, a string a string or a list, and a value of any other type
    comes back unchanged. *)
Theorem resolve_preserves_shape (vals : Dict) (final : bool) :
  (forall l r, resolve vals (VList l) final = Ok r ->
     exists l', r = VList l' /\ length l' = length l)
  /\ (forall d r, resolve vals (VDict d) final = Ok r ->
        exists d', r = VDict d' /\ dict_keys d' = dict_keys d)
  /\ (forall s r, resolve vals (VStr s) final = Ok r ->
        (exists s', r = VStr s') \/ (exists l, r = VList l))
  /\ (forall s, (forall x, s <> VStr x) -> (forall l, s <> VList l) ->
        (forall d, s <> VDict d) -> resolve vals s final = Ok s).
Proof.
  split; [|split; [|split]].
  - intros l r. apply resolve_list_length.
  - intros d r. apply resolve_dict_keys.
  - intros s r. cbn [resolve]. apply resolve_loop_str_state.
  - intros [| | |x|l|d] Hs Hl Hd; try reflexivity.
    + now elim (Hs x).
    + now elim (Hl l).
    + now elim (Hd d).
Qed.

Section NoSequences.

Variable vals : Dict.
Hypothesis no_sequence : forall k v l, lookup vals k <> VList (v :: l).

Lemma resolve_match_no_sequence (final : bool) (y : pystr) (m : Match) :
  exists y', resolve_match vals final (VStr y) m = Ok (VStr y').
Proof.
  unfold resolve_match.
  pose proof (no_sequence (remove_qmarks (m_group1 m))) as Hn.
  destruct (lookup vals (remove_qmarks (m_group1 m))) as [|b|z|[|c x]|[|v l]|d];
    cbn [truthy length Nat.eqb];
    try destruct b; try destruct (z =? 0)%Z; try destruct d; destruct final;
    cbn; eauto.
  - now elim (Hn v l).
  - now elim (Hn v l).
Qed.

Lemma resolve_loop_no_sequence (final : bool) (ms : list Match) (y : pystr) :
  exists y', resolve_loop vals final ms (VStr y) = Ok (VStr y').
Proof.
  revert y. induction ms as [|m ms IH]; intros y; [now exists y|].
  rewrite resolve_loop_cons.
  destruct (resolve_match_no_sequence final y m) as [y1 ->]. cbn. apply IH.
Qed.

Lemma resolve_no_sequence : forall (s : Value) (final : bool),
  exists r, resolve vals s final = Ok r.
Proof.
  fix IH 1. intros [| | |x|l|d] final; try (eexists; reflexivity).
  - destruct (resolve_loop_no_sequence final (rev (finditer x)) x) as [y H].
    exists (VStr y). exact H.
  - cbn [resolve].
    match goal with |- exists r, bind (?go l) _ = _ => set (go_list := go) end.
    assert (E : exists l', go_list l = Ok l').
    { induction l as [|a l IHl]; [now exists []|].
      destruct (IH a false) as [a' Ha]. destruct IHl as [l' Hl].
      exists (a' :: l'). cbn. rewrite Ha. cbn. now rewrite Hl. }
    destruct E as [l' ->]. now eexists.
  - cbn [resolve].
    match goal with |- exists r, bind (?go d) _ = _ => set (go_dict := go) end.
    assert (E : exists d', go_dict d = Ok d').
    { induction d as [|[k a] d IHd]; [now exists []|].
      destruct (IH a false) as [a' Ha]. destruct IHd as [d' Hd].
      exists ((k, a') :: d'). cbn. rewrite Ha. cbn. now rewrite Hd. }
    destruct E as [d' ->]. now eexists.
Qed.

End NoSequences.

(** X6. [resolve] raises only next to a sequence: in an environment that
    binds no key to a list that is not empty, [resolve] raises on no value,
    and a string resolves to a string. *)
Theorem resolve_safe_without_sequences (vals : Dict) :
  (forall k v l, lookup vals k <> VList (v :: l)) ->
  (forall s final, exists s', resolve vals (VStr s) final = Ok (VStr s'))
  /\ (forall v final, exists r, resolve vals v final = Ok r).
Proof.
  intros H. split.
  - intros s final. cbn [resolve]. now apply resolve_loop_no_sequence.
  - now apply resolve_no_sequence.
Qed.

Lemma resolve_safe_without_sequences_witness :
  exists r,
    resolve [(str "a", VStr (str "X")); (str "n", VInt 3)]
            (VList [VStr (str "${a}${n}${zz}"); VNone]) true = Ok r.
Proof.
  apply (@resolve_safe_without_sequences
           [(str "a", VStr (str "X")); (str "n", VInt 3)]).
  intros k v l. unfold lookup. cbn [dict_get].
  destruct (pystr_eqb k (str "a")); [discriminate|].
  destruct (pystr_eqb k (str "n")); discriminate.
Defined.

(* ------------------------------------------------------------------ *)
(** ** [add_values] *)

Lemma dict_has_set {V : Type} (key k : pystr) (v : V) (d : list (pystr * V)) :
  dict_has key (dict_set k v d) = pystr_eqb key k || dict_has key d.
Proof.
  unfold dict_has. destruct (pystr_eqb key k) eqn:E.
  - apply pystr_eqb_eq in E. subst key. now rewrite dict_get_set_same.
  - now rewrite dict_get_set_other.
Qed.

Lemma dict_set_get_same {V : Type} (k : pystr) (v : V) (d : list (pystr * V)) :
  dict_get k d = Some v -> dict_set k v d = d.
Proof.
  induction d as [|[k' v'] d IH]; simpl; [discriminate|].
  destruct (pystr_eqb k k') eqn:E.
  - now intros [= ->].
  - intros H. now rewrite IH.
Qed.

Lemma heap_set_set (a : nat) (d1 d2 : Dict) (h : Heap) :
  heap_set a d2 (heap_set a d1 h) = heap_set a d2 h.
Proof.
  revert a. induction h as [|x h IH]; intros a; [now destruct a|].
  destruct a as [|a]; [reflexivity|]. cbn. now rewrite IH.
Qed.

Lemma add_value_keeps_keys (vals : Dict) (k : pystr) (v : Value) (key : pystr) :
  dict_has key vals = true -> dict_has key (fst (add_value vals k v)) = true.
Proof.
  intros H. unfold add_value.
  assert (Hs : forall x, dict_has key (dict_set k x vals) = true)
    by (intros x; rewrite dict_has_set, H; apply orb_true_r).
  destruct (dict_get k vals) as [[| | | | |d]|];
    destruct (resolve vals v false) as [r|e]; cbn [fst]; trivial.
  destruct (py_dict_update d r) as [d' o]. cbn [fst]. apply Hs.
Qed.

Lemma add_values_dict_keeps_keys (items vals : Dict) (key : pystr) :
  dict_has key vals = true ->
  dict_has key (fst (add_values_dict vals items)) = true.
Proof.
  revert vals. induction items as [|[k v] items IH]; intros vals H; [exact H|].
  cbn [add_values_dict].
  pose proof (add_value_keeps_keys vals k v key H) as H1.
  destruct (add_value vals k v) as [vals' [u|e]]; cbn [fst] in *.
  - now apply IH.
  - exact H1.
Qed.

Lemma add_values_dict_app (i1 i2 vals : Dict) :
  add_values_dict vals (i1 ++ i2) =
  match add_values_dict vals i1 with
  | (v1, Ok _) => add_values_dict v1 i2
  | (v1, Raise e) => (v1, Raise e)
  end.
Proof.
  revert vals. induction i1 as [|[k v] i1 IH]; intros vals; [reflexivity|].
  cbn [app add_values_dict].
  destruct (add_value vals k v) as [vals' [u|e]]; [apply IH|reflexivity].
Qed.

(** X7. [add_values] handles the items in their order, each one against
    the store as the items before it left it, and stops at the first item
    that raises: adding two runs of items at once is adding the first run
    and then, if it did not raise, the second. So a value can refer to a
    name bound earlier in the same call and not to one bound later. *)
Theorem add_values_in_order (self : ResolutionEnv) (h : Heap) (i1 i2 : Dict) :
  values self < length h ->
  add_values self (i1 ++ i2) h =
    match add_values self i1 h with
    | (h1, Ok _) => add_values self i2 h1
    | (h1, Raise e) => (h1, Raise e)
    end
  /\ dict_get (str "b")
       (heap_get 0 (fst (add_values (init None)
                           [(str "a", VStr (str "X"));
                            (str "b", VStr (str "${a}"))] initial_heap)))
     = Some (VStr (str "X"))
  /\ dict_get (str "b")
       (heap_get 0 (fst (add_values (init None)
                           [(str "b", VStr (str "${a}"));
                            (str "a", VStr (str "X"))] initial_heap)))
     = Some (VStr (str "${a}")).
Proof.
  intros Hlt. split; [|split; reflexivity].
  unfold add_values. rewrite add_values_dict_app.
  destruct (add_values_dict (heap_get (values self) h) i1) as [d1 [u|e]];
    [|reflexivity].
  rewrite heap_get_set_same by exact Hlt.
  destruct (add_values_dict d1 i2) as [d2 o]. now rewrite heap_set_set.
Qed.

Lemma add_values_in_order_witness :
  add_values (init None)
    ([(str "a", VStr (str "X"))] ++ [(str "b", VStr (str "${a}"))]) initial_heap
  = match add_values (init None) [(str "a", VStr (str "X"))] initial_heap with
    | (h1, Ok _) => add_values (init None) [(str "b", VStr (str "${a}"))] h1
    | (h1, Raise e) => (h1, Raise e)
    end.
Proof.
  apply (@add_values_in_order (init None) initial_heap
           [(str "a", VStr (str "X"))] [(str "b", VStr (str "${a}"))]).
  exact (Nat.lt_0_succ 0).
Defined.

(** X8. [add_values] never unbinds a name: every key bound in the
    environment before the call is bound after it, also when the call
    raises half way. *)
Theorem add_values_keeps_keys
  (self : ResolutionEnv) (h : Heap) (items : Dict) (key : pystr) :
  dict_has key (heap_get (values self) h) = true ->
  dict_has key (heap_get (values self) (fst (add_values self items h))) = true.
Proof.
  intros H. unfold add_values.
  pose proof (add_values_dict_keeps_keys items _ key H) as H1.
  destruct (add_values_dict (heap_get (values self) h) items) as [d o].
  cbn [fst] in *.
  destruct (Nat.lt_ge_cases (values self) (length h)) as [Hlt|Hge].
  - now rewrite heap_get_set_same.
  - unfold heap_get in H. rewrite nth_overflow in H by exact Hge.
    discriminate.
Qed.

Lemma add_values_keeps_keys_witness :
  dict_has (str "a")
    (heap_get 0
       (fst (add_values (init None)
               [(str "a", VStr (str "${l}${l}")); (str "z", VInt 1)]
               [[(str "a", VInt 0); (str "l", VList [VStr (str "p")])]])))
  = true.
Proof.
  apply (@add_values_keeps_keys (init None)
           [[(str "a", VInt 0); (str "l", VList [VStr (str "p")])]]).
  reflexivity.
Defined.

(** X9. A scalar does not replace a mapping. When the key is bound to a
    dict, an incoming value that resolves to a string that is not empty
    makes [add_values] raise [ValueError], one that resolves to [None], a
    boolean or a number makes it raise [TypeError], and one that resolves to
    the empty string or the empty list is dropped without an error; in each
    case the store is as it was. *)
Theorem add_values_scalar_into_mapping
  (vals : Dict) (k : pystr) (dold : Dict) (v r : Value) :
  dict_get k vals = Some (VDict dold) ->
  resolve vals v false = Ok r ->
  match r with
  | VStr (_ :: _) => add_values_dict vals [(k, v)] = (vals, Raise ValueError)
  | VStr [] | VList [] => add_values_dict vals [(k, v)] = (vals, Ok tt)
  | VNone | VBool _ | VInt _ =>
      add_values_dict vals [(k, v)] = (vals, Raise TypeError)
  | _ => True
  end.
Proof.
  intros Hk Hr. rewrite (add_value_on_dict _ _ v Hk), Hr.
  destruct r as [|b|z|[|c s]|[|a l]|d]; cbn; trivial;
    now rewrite (dict_set_get_same _ _ Hk).
Qed.

Lemma add_values_scalar_into_mapping_witness :
  add_values_dict [(str "k", VDict [(str "a", VInt 1)])]
                  [(str "k", VStr (str "text"))]
  = ([(str "k", VDict [(str "a", VInt 1)])], Raise ValueError).
Proof.
  apply (@add_values_scalar_into_mapping
           [(str "k", VDict [(str "a", VInt 1)])] (str "k")
           [(str "a", VInt 1)] (VStr (str "text")) (VStr (str "text")));
    reflexivity.
Defined.

(* ------------------------------------------------------------------ *)
(** ** [deep] *)

Section Deep.

Variable f : pystr -> pystr.
Variable allow_none : bool.

(** [fun] returns a string and raises nothing. *)
Let f_ (s : pystr) : out Value := Done (VStr (f s)).

Lemma deep_total_by_leaves : forall v,
  (deep_leaves allow_none v = true ->
     exists r, deep f_ allow_none v = Done r)
  /\ (deep_leaves allow_none v = false ->
      exists msg, deep f_ allow_none v = Fail (RuntimeError msg)).
Proof.
  fix IH 1. intros [|b|z|x|l|d].
  - clear IH. cbn. destruct allow_none; split; intros H; try discriminate;
      eexists; reflexivity.
  - clear IH. cbn. split; intros H; try discriminate. eexists. reflexivity.
  - clear IH. cbn. split; intros H; try discriminate. eexists. reflexivity.
  - clear IH. cbn. split; intros H; try discriminate. eexists. reflexivity.
  - cbn [deep deep_leaves].
    match goal with |- context [out_bind (?go l) _] => set (go_list := go) end.
    assert (E : (forallb (deep_leaves allow_none) l = true ->
                   exists l', go_list l = Done l')
                /\ (forallb (deep_leaves allow_none) l = false ->
                    exists msg, go_list l = Fail (RuntimeError msg))).
    { induction l as [|a l IHl]; [split; [now exists []|discriminate]|].
      destruct (IH a) as [Ha1 Ha2]. destruct IHl as [Hl1 Hl2].
      cbn [forallb]. cbn [go_list]. fold go_list.
      destruct (deep_leaves allow_none a).
      - destruct (Ha1 eq_refl) as [a' ->]. cbn [andb out_bind]. split.
        + intros Hl. destruct (Hl1 Hl) as [l' ->]. now eexists.
        + intros Hl. destruct (Hl2 Hl) as [msg ->]. now eexists.
      - destruct (Ha2 eq_refl) as [msg ->]. cbn [andb out_bind].
        split; [discriminate|]. intros _. now eexists. }
    destruct E as [E1 E2]. split; intros H.
    + destruct (E1 H) as [l' ->]. now eexists.
    + destruct (E2 H) as [msg ->]. now eexists.
  - cbn [deep deep_leaves].
    match goal with |- context [out_bind (?go d) _] => set (go_dict := go) end.
    assert (E : (forallb (fun kv => deep_leaves allow_none (snd kv)) d = true ->
                   exists d', go_dict d = Done d')
                /\ (forallb (fun kv => deep_leaves allow_none (snd kv)) d = false ->
                    exists msg, go_dict d = Fail (RuntimeError msg))).
    { induction d as [|[k a] d IHd]; [split; [now exists []|discriminate]|].
      destruct (IH a) as [Ha1 Ha2]. destruct IHd as [Hd1 Hd2].
      cbn [forallb snd]. cbn [go_dict]. fold go_dict.
      destruct (deep_leaves allow_none a).
      - destruct (Ha1 eq_refl) as [a' ->]. cbn [andb out_bind]. split.
        + intros Hd. destruct (Hd1 Hd) as [d' ->]. now eexists.
        + intros Hd. destruct (Hd2 Hd) as [msg ->]. now eexists.
      - destruct (Ha2 eq_refl) as [msg ->]. cbn [andb out_bind].
        split; [discriminate|]. intros _. now eexists. }
    destruct E as [E1 E2]. split; intros H.
    + destruct (E1 H) as [d' ->]. now eexists.
    + destruct (E2 H) as [msg ->]. now eexists.
Qed.

(** Where [deep] stops, and with which message. *)
Lemma deep_stops_at_first_bad_leaf : forall v,
  match first_bad_leaf allow_none v with
  | None => deep_leaves allow_none v = true
  | Some leaf =>
      deep_leaves allow_none v = false
      /\ deep f_ allow_none v
         = Fail (RuntimeError (str "paths is of type " ++ type_repr leaf))
      /\ ((leaf = VNone /\ allow_none = false)
          \/ (exists b, leaf = VBool b) \/ (exists z, leaf = VInt z))
  end.
Proof.
  fix IH 1. intros [|b|z|x|l|d].
  - clear IH. cbn. destruct allow_none; [reflexivity|].
    repeat split. left. now split.
  - clear IH. cbn. repeat split. right. left. now exists b.
  - clear IH. cbn. repeat split. right. right. now exists z.
  - clear IH. reflexivity.
  - cbn [first_bad_leaf deep deep_leaves].
    match goal with
    | |- match ?gb l with _ => _ end => set (go_bad := gb)
    end.
    match goal with
    | |- context [out_bind (?go l) _] => set (go_list := go)
    end.
    assert (E : match go_bad l with
                | None => forallb (deep_leaves allow_none) l = true
                | Some leaf =>
                    forallb (deep_leaves allow_none) l = false
                    /\ go_list l
                       = Fail (RuntimeError
                                 (str "paths is of type " ++ type_repr leaf))
                    /\ ((leaf = VNone /\ allow_none = false)
                        \/ (exists b, leaf = VBool b)
                        \/ (exists z, leaf = VInt z))
                end).
    { induction l as [|a l IHl]; [reflexivity|].
      pose proof (IH a) as Ha.
      pose proof (deep_total_by_leaves a) as [Ht _].
      cbn [go_bad go_list forallb]. fold go_bad. fold go_list.
      destruct (first_bad_leaf allow_none a) as [leaf|].
      - destruct Ha as (Hl & Hd & Hk). rewrite Hl, Hd. cbn. now repeat split.
      - rewrite Ha. destruct (Ht Ha) as [a' ->]. cbn [andb out_bind].
        destruct (go_bad l) as [leaf|]; [|exact IHl].
        destruct IHl as (Hl & Hd & Hk). rewrite Hd. now repeat split. }
    destruct (go_bad l) as [leaf|]; [|exact E].
    destruct E as (Hl & Hd & Hk). rewrite Hd. now repeat split.
  - cbn [first_bad_leaf deep deep_leaves].
    match goal with
    | |- match ?gb d with _ => _ end => set (go_bad := gb)
    end.
    match goal with
    | |- context [out_bind (?go d) _] => set (go_dict := go)
    end.
    assert (E : match go_bad d with
                | None =>
                    forallb (fun kv => deep_leaves allow_none (snd kv)) d = true
                | Some leaf =>
                    forallb (fun kv => deep_leaves allow_none (snd kv)) d = false
                    /\ go_dict d
                       = Fail (RuntimeError
                                 (str "paths is of type " ++ type_repr leaf))
                    /\ ((leaf = VNone /\ allow_none = false)
                        \/ (exists b, leaf = VBool b)
                        \/ (exists z, leaf = VInt z))
                end).
    { induction d as [|[k a] d IHd]; [reflexivity|].
      pose proof (IH a) as Ha.
      pose proof (deep_total_by_leaves a) as [Ht _].
      cbn [go_bad go_dict forallb snd]. fold go_bad. fold go_dict.
      destruct (first_bad_leaf allow_none a) as [leaf|].
      - destruct Ha as (Hl & Hd & Hk). rewrite Hl, Hd. cbn. now repeat split.
      - rewrite Ha. destruct (Ht Ha) as [a' ->]. cbn [andb out_bind].
        destruct (go_bad d) as [leaf|]; [|exact IHd].
        destruct IHd as (Hl & Hd & Hk). rewrite Hd. now repeat split. }
    destruct (go_bad d) as [leaf|]; [|exact E].
    destruct E as (Hl & Hd & Hk). rewrite Hd. now repeat split.
Qed.

Variable g : pystr -> out Value.

Lemma deep_after_deep : forall v r,
  deep f_ allow_none v = Done r ->
  deep g allow_none r = deep (fun s => g (f s)) allow_none v.
Proof.
  fix IH 1. intros [|b|z|x|l|d] r.
  - clear IH. cbn. destruct allow_none; [|discriminate].
    intros [= <-]. reflexivity.
  - clear IH. discriminate.
  - clear IH. discriminate.
  - clear IH. cbn. now intros [= <-].
  - cbn [deep].
    match goal with
    | |- out_bind (?go l) _ = _ -> _ = out_bind (?go' l) _ =>
        set (go_f := go); set (go_gf := go')
    end.
    destruct (go_f l) as [l'|e] eqn:E; cbn [out_bind]; [|discriminate].
    intros [= <-]. cbn [deep].
    match goal with |- out_bind (?go l') _ = _ => set (go_g := go) end.
    f_equal. revert l' E. induction l as [|a l IHl]; intros l' E.
    + cbn in E. now injection E as <-.
    + cbn [go_f] in E. fold go_f in E.
      destruct (deep f_ allow_none a) as [a'|] eqn:Ea;
        cbn [out_bind] in E; [|discriminate].
      destruct (go_f l) as [t|] eqn:Et; cbn [out_bind] in E; [|discriminate].
      injection E as <-. cbn [go_g go_gf]. fold go_g. fold go_gf.
      rewrite (IH a a' Ea), (IHl t eq_refl). reflexivity.
  - cbn [deep].
    match goal with
    | |- out_bind (?go d) _ = _ -> _ = out_bind (?go' d) _ =>
        set (go_f := go); set (go_gf := go')
    end.
    destruct (go_f d) as [d'|e] eqn:E; cbn [out_bind]; [|discriminate].
    intros [= <-]. cbn [deep].
    match goal with |- out_bind (?go d') _ = _ => set (go_g := go) end.
    f_equal. revert d' E. induction d as [|[k a] d IHd]; intros d' E.
    + cbn in E. now injection E as <-.
    + cbn [go_f] in E. fold go_f in E.
      destruct (deep f_ allow_none a) as [a'|] eqn:Ea;
        cbn [out_bind] in E; [|discriminate].
      destruct (go_f d) as [t|] eqn:Et; cbn [out_bind] in E; [|discriminate].
      injection E as <-. cbn [go_g go_gf]. fold go_g. fold go_gf.
      rewrite (IH a a' Ea), (IHd t eq_refl). reflexivity.
Qed.

End Deep.

(** X11. For a [fun] that returns a string and raises nothing, [deep]
    returns exactly when every leaf of the nested value is a string, or
    [None] where [allow_none] is set, at any depth. On every other value it
    raises [RuntimeError] at the first leaf, in the order of the traversal,
    that is neither: a [None] that is not allowed, a boolean or a number;
    and the message names the type of that leaf. *)
Theorem deep_raises_only_on_leaves
  (f : pystr -> pystr) (allow_none : bool) (v : Value) :
  ((exists r, deep (fun s => Done (VStr (f s))) allow_none v = Done r)
   <-> deep_leaves allow_none v = true)
  /\ (deep_leaves allow_none v = false ->
      exists leaf,
        first_bad_leaf allow_none v = Some leaf
        /\ ((leaf = VNone /\ allow_none = false)
            \/ (exists b, leaf = VBool b) \/ (exists z, leaf = VInt z))
        /\ deep (fun s => Done (VStr (f s))) allow_none v
           = Fail (RuntimeError (str "paths is of type " ++ type_repr leaf)))
  /\ deep (fun s => Done (VStr (f s))) allow_none
          (VDict [(str "a", VList [VStr (str "x"); VInt 1])])
     = Fail (RuntimeError (str "paths is of type <class 'int'>"))
  /\ deep (fun s => Done (VStr (f s))) true (VList [VNone; VStr (str "x")])
     = Done (VList [VNone; VStr (f (str "x"))])
  /\ deep (fun s => Done (VStr (f s))) false (VList [VNone; VStr (str "x")])
     = Fail (RuntimeError (str "paths is of type <class 'NoneType'>")).
Proof.
  destruct (deep_total_by_leaves f allow_none v) as [H1 H2].
  pose proof (deep_stops_at_first_bad_leaf f allow_none v) as H3.
  split; [|split; [|repeat split]].
  - split; [|exact H1].
    intros [r Hr]. destruct (deep_leaves allow_none v); [reflexivity|].
    destruct (H2 eq_refl) as [msg Hm]. rewrite Hm in Hr. discriminate.
  - intros Hl. destruct (first_bad_leaf allow_none v) as [leaf|].
    + destruct H3 as (_ & Hd & Hk). exists leaf. now repeat split.
    + rewrite H3 in Hl. discriminate.
Qed.

(** X12. Two passes of [deep] are one pass with the two functions chained:
    when a first pass with a function that returns strings has returned,
    a second pass over its result gives what one pass with the second
    function applied after the first gives, the exception included. *)
Theorem deep_composes
  (f : pystr -> pystr) (g : pystr -> out Value) (allow_none : bool)
  (v r : Value) :
  deep (fun s => Done (VStr (f s))) allow_none v = Done r ->
  deep g allow_none r = deep (fun s => g (f s)) allow_none v.
Proof. apply deep_after_deep. Qed.

Lemma deep_composes_witness :
  deep (fun s => Done (VList [VStr s; VStr s])) true
       (VDict [(str "k", VList [VStr (str "a" ++ str "/"); VNone])])
  = deep (fun s => Done (VList [VStr (s ++ str "/"); VStr (s ++ str "/")])) true
         (VDict [(str "k", VList [VStr (str "a"); VNone])]).
Proof.
  apply (@deep_composes (fun s => s ++ str "/")
           (fun s => Done (VList [VStr s; VStr s])) true
           (VDict [(str "k", VList [VStr (str "a"); VNone])])).
  reflexivity.
Defined.

(* ------------------------------------------------------------------ *)
(** ** [options_dict_to_list] *)

Lemma options_fold_acc (py_str : Value -> pystr) (d : Dict) (acc : list pystr) :
  fold_left (fun opts kv => option_item py_str opts (fst kv) (snd kv)) d acc
  = acc ++ options_dict_to_list py_str d.
Proof.
  unfold options_dict_to_list. revert acc.
  induction d as [|[k v] d IH]; intros acc; cbn [fold_left fst snd].
  - now rewrite app_nil_r.
  - rewrite (IH (option_item py_str acc k v)),
            (IH (option_item py_str [] k v)).
    unfold option_item. destruct (negb (is_empty_list v)); cbn [app];
      now rewrite <- ?app_assoc.
Qed.

(** X13. [options_dict_to_list] turns each item, in the order of the dict,
    into its flag followed by the string of its value, and into the flag
    alone when the value is the empty list: the list for two dicts one
    after the other is the two lists one after the other, and its length is
    the number of items plus the number of items whose value is not the
    empty list. With a [str()] that returns strings as they are, the dict
    foo: bar, flag: [] gives --foo, bar, --flag. *)
Theorem options_dict_to_list_items (py_str : Value -> pystr) :
  (forall k v,
     options_dict_to_list py_str [(k, v)] =
     if is_empty_list v then [str "--" ++ k]
     else [str "--" ++ k; py_str v])
  /\ (forall d1 d2,
        options_dict_to_list py_str (d1 ++ d2) =
        options_dict_to_list py_str d1 ++ options_dict_to_list py_str d2)
  /\ (forall d,
        length (options_dict_to_list py_str d) =
        length d
        + length (filter (fun kv => negb (is_empty_list (snd kv))) d))
  /\ ((forall s, py_str (VStr s) = s) ->
      options_dict_to_list py_str
        [(str "foo", VStr (str "bar")); (str "flag", VList [])]
      = [str "--foo"; str "bar"; str "--flag"]).
Proof.
  assert (H1 : forall k v,
             options_dict_to_list py_str [(k, v)] =
             if is_empty_list v then [str "--" ++ k]
             else [str "--" ++ k; py_str v]).
  { intros k v. unfold options_dict_to_list, option_item. cbn [fold_left fst snd].
    now destruct (is_empty_list v). }
  assert (H2 : forall d1 d2,
             options_dict_to_list py_str (d1 ++ d2) =
             options_dict_to_list py_str d1 ++ options_dict_to_list py_str d2).
  { intros d1 d2. unfold options_dict_to_list at 1.
    rewrite fold_left_app. fold (options_dict_to_list py_str d1).
    apply options_fold_acc. }
  split; [exact H1|]. split; [exact H2|]. split.
  - induction d as [|[k v] d IH]; [reflexivity|].
    change ((k, v) :: d) with ([(k, v)] ++ d).
    rewrite H2, length_app, IH, H1. cbn [app filter snd length].
    destruct (is_empty_list v); cbn [negb length]; lia.
  - intros Hs. unfold options_dict_to_list, option_item. cbn.
    now rewrite Hs.
Qed.

(* ------------------------------------------------------------------ *)
(** ** [map_io], [__init__] and the environment of [execute] *)

Lemma decompose_raises_IndexError (name : pystr) (e : exn) :
  decompose_depname name = Raise e -> e = IndexError.
Proof.
  destruct (rev name) as [|c r] eqn:E.
  - apply (f_equal (@rev ascii)) in E. rewrite rev_involutive in E.
    subst name. now intros [= <-].
  - assert (Hn : name = rev r ++ [c])
      by (rewrite <- (rev_involutive name), E; reflexivity).
    rewrite Hn, decompose_snoc. discriminate.
Qed.

Lemma pystr_eqb_sym (a b : pystr) : pystr_eqb a b = pystr_eqb b a.
Proof.
  destruct (pystr_eqb a b) eqn:E.
  - apply pystr_eqb_eq in E. subst. now rewrite pystr_eqb_refl.
  - destruct (pystr_eqb b a) eqn:E'; [|reflexivity].
    apply pystr_eqb_eq in E'. subst. now rewrite pystr_eqb_refl in E.
Qed.

Section MapIOResult.

Variable PathT : Type.
Variable Path : pystr -> PathT.
Variable path_div : PathT -> pystr -> PathT.
Variable path_parent : PathT -> PathT.
Variable path_str : PathT -> pystr.

(** The loop returns exactly when no extra product is empty or optional. *)
Lemma map_io_extras_succeeds (top : PathT) (device : pystr)
  (extras : list pystr) (mapping : list (pystr * pystr)) :
  (exists m, map_io_extras path_div path_parent path_str top device mapping extras = Ok m)
  <-> (forall extra, In extra extras ->
         exists name q, decompose_depname extra = Ok (name, q) /\ q <> q_maybe).
Proof.
  revert mapping. induction extras as [|extra extras IH]; intros mapping.
  - split; [intros _ x []|]. intros _. now exists mapping.
  - cbn [map_io_extras]. split.
    + intros [m Hm] x [<-|Hx].
      * destruct (decompose_depname extra) as [[name spec]|e];
          cbn [bind] in Hm; [|discriminate].
        exists name, spec. split; [reflexivity|].
        intros ->. rewrite pystr_eqb_refl, load_ModuleRuntimeException in Hm.
        discriminate.
      * destruct (decompose_depname extra) as [[name spec]|e];
          cbn [bind] in Hm; [|discriminate].
        destruct (pystr_eqb spec q_maybe).
        { rewrite load_ModuleRuntimeException in Hm. discriminate. }
        destruct (pystr_eqb spec q_req);
          (eapply IH; [eexists; exact Hm|exact Hx]).
    + intros H. destruct (H extra (or_introl eq_refl)) as (name & q & -> & Hq).
      cbn [bind]. apply pystr_eqb_neq in Hq. rewrite Hq.
      destruct (pystr_eqb q q_req); apply IH; intros x Hx; apply H; now right.
Qed.

Lemma map_io_extras_raises (top : PathT) (device : pystr)
  (extras : list pystr) (mapping : list (pystr * pystr)) (e : exn) :
  map_io_extras path_div path_parent path_str top device mapping extras = Raise e ->
  e = IndexError \/ e = NameError (str "ModuleRuntimeException").
Proof.
  revert mapping. induction extras as [|extra extras IH]; intros mapping;
    cbn [map_io_extras]; [discriminate|].
  destruct (decompose_depname extra) as [[name spec]|e'] eqn:E; cbn [bind].
  - destruct (pystr_eqb spec q_maybe).
    + rewrite load_ModuleRuntimeException. intros [= <-]. now right.
    + destruct (pystr_eqb spec q_req); apply IH.
  - intros [= <-]. left. now apply decompose_raises_IndexError with (name := extra).
Qed.

(** What the loop returns, read as a map. *)
Lemma map_io_extras_get (top : PathT) (device : pystr)
  (extras : list pystr) (mapping m : list (pystr * pystr)) (key : pystr) :
  map_io_extras path_div path_parent path_str top device mapping extras = Ok m ->
  dict_get key m =
  if existsb (is_required_extra key) extras
  then Some (extra_path path_div path_parent path_str top device key)
  else dict_get key mapping.
Proof.
  revert mapping. induction extras as [|extra extras IH]; intros mapping;
    cbn [map_io_extras existsb].
  - now intros [= <-].
  - unfold is_required_extra at 1.
    destruct (decompose_depname extra) as [[name spec]|e]; cbn [bind];
      [|discriminate].
    destruct (pystr_eqb spec q_maybe) eqn:Em.
    { rewrite load_ModuleRuntimeException. discriminate. }
    destruct (pystr_eqb spec q_req) eqn:Er; cbn [andb orb].
    + intros Hm. rewrite (IH _ Hm).
      destruct (pystr_eqb name key) eqn:Ek; cbn [orb].
      * apply pystr_eqb_eq in Ek. subst key.
        destruct (existsb (is_required_extra name) extras); [reflexivity|].
        apply dict_get_set_same.
      * destruct (existsb (is_required_extra key) extras); [reflexivity|].
        apply dict_get_set_other. now rewrite pystr_eqb_sym.
    + apply IH.
Qed.

End MapIOResult.

(** X14. [map_io] returns a mapping exactly when every extra product has a
    name that is not empty and carries no optional marker. When it raises,
    the exception is the [IndexError] of an empty name or the [NameError] of
    the unbound exception class, and nothing else. *)
Theorem map_io_succeeds_iff
  (PathT : Type) (Path : pystr -> PathT) (path_div : PathT -> pystr -> PathT)
  (path_parent : PathT -> PathT) (path_str : PathT -> pystr)
  (self : YosysModule) (ctx : ModuleContext) :
  ((exists m, map_io Path path_div path_parent path_str self ctx = Ok m)
   <-> (forall extra, In extra (extra_products self) ->
          exists name q,
            decompose_depname extra = Ok (name, q) /\ q <> q_maybe))
  /\ (forall e,
        map_io Path path_div path_parent path_str self ctx = Raise e ->
        e = IndexError \/ e = NameError (str "ModuleRuntimeException")).
Proof.
  unfold map_io. split.
  - apply map_io_extras_succeeds.
  - intros e. apply map_io_extras_raises.
Qed.

(** X15. The mapping [map_io] returns, read by key: a name that some extra
    product declares as required is mapped to the device-prefixed path next
    to [top], also when it is one of the four fixed names, which it then
    overrides; any other key has the entry of the fixed mapping, if it has
    one. So a demanded extra product gets no path. *)
Theorem map_io_paths
  (PathT : Type) (Path : pystr -> PathT) (path_div : PathT -> pystr -> PathT)
  (path_parent : PathT -> PathT) (path_str : PathT -> pystr)
  (self : YosysModule) (ctx : ModuleContext) (m : list (pystr * pystr)) :
  map_io Path path_div path_parent path_str self ctx = Ok m ->
  let top :=
    match takes_build_dir ctx with
    | Some ((_ :: _) as build_dir) => path_div (Path build_dir) (values_top ctx)
    | _ => Path (values_top ctx)
    end in
  forall key,
    dict_get key m =
    if existsb (is_required_extra key) (extra_products self)
    then Some (path_str (path_div (path_parent top)
                 (values_device ctx ++ str "_" ++ key ++ str "." ++ key)))
    else dict_get key
           [(str "eblif", path_str top ++ str ".eblif");
            (str "fasm_extra", path_str top ++ str "_fasm_extra.fasm");
            (str "json", path_str top ++ str ".json");
            (str "synth_json", path_str top ++ str "_io.json")].
Proof.
  intros Hm top key. subst top. unfold map_io in Hm.
  now rewrite (@map_io_extras_get PathT path_div path_parent path_str
                 _ _ _ _ m key Hm).
Qed.

Lemma map_io_paths_witness :
  let m := [(str "eblif", str "b/t.eblif");
            (str "fasm_extra", str "b/t_fasm_extra.fasm");
            (str "json", str "b/d_json.json");
            (str "synth_json", str "b/t_io.json")] in
  dict_get (str "json") m = Some (str "b/d_json.json")
  /\ dict_get (str "log") m = None.
Proof.
  intros m.
  pose proof (@map_io_paths pystr (fun s => s)
                (fun p s => p ++ str "/" ++ s)
                (fun p => firstn 1 p) (fun p => p)
                (mkYosys [str "json"; str "log!"])
                (mkContext (Some (str "b")) (str "t") (str "d"))
                m eq_refl) as H.
  cbv zeta in H.
  split; [exact (H (str "json"))|exact (H (str "log"))].
Defined.

(** X16. For a module built by [__init__], whatever the family and the
    parameters: when [map_io] returns, every product the module declares as
    required has a path in the mapping; and the demanded product synth_log,
    which every module declares, has none unless the parameters declare a
    required extra product of that name. *)
Theorem yosys_required_products_mapped
  (PathT : Type) (Path : pystr -> PathT) (path_div : PathT -> pystr -> PathT)
  (path_parent : PathT -> PathT) (path_str : PathT -> pystr)
  (FPGA_FAM : pystr) (params : YosysParams) (ctx : ModuleContext)
  (m : list (pystr * pystr)) :
  map_io Path path_div path_parent path_str
         (as_module (yosys_init FPGA_FAM params)) ctx = Ok m ->
  (forall p name,
     In p (self_produces (yosys_init FPGA_FAM params)) ->
     decompose_depname p = Ok (name, q_req) ->
     dict_has name m = true)
  /\ In (str "synth_log!") (self_produces (yosys_init FPGA_FAM params))
  /\ (existsb (is_required_extra (str "synth_log"))
              (given (params_produces params)) = false ->
      dict_has (str "synth_log") m = false).
Proof.
  intros Hm. unfold map_io in Hm.
  pose proof (fun key =>
                @map_io_extras_get PathT path_div path_parent path_str
                  _ _ _ _ m key Hm) as Hget.
  cbn [as_module yosys_init self_extra_products extra_products] in Hget.
  split; [|split].
  - intros p name Hin Hd. unfold dict_has. rewrite Hget.
    destruct (existsb (is_required_extra name) (given (params_produces params)))
      eqn:Ex; [reflexivity|].
    cbn [yosys_init self_produces] in Hin.
    apply in_app_or in Hin as [Hin|Hin].
    + assert (Hb : In p [str "json"; str "synth_log!"; str "eblif";
                         str "fasm_extra"; str "synth_json"]).
      { destruct (pystr_eqb _ (str "vpr")).
        - apply in_app_or in Hin as [Hin|Hin]; simpl in Hin |- *; intuition.
        - simpl in Hin |- *. intuition. }
      simpl in Hb.
      destruct Hb as [<-|[<-|[<-|[<-|[<-|[]]]]]];
        cbv in Hd; try discriminate; injection Hd as <-; reflexivity.
    + exfalso. apply Bool.not_true_iff_false in Ex. apply Ex.
      apply existsb_exists. exists p. split; [exact Hin|].
      unfold is_required_extra. rewrite Hd.
      now rewrite !pystr_eqb_refl.
  - cbn [yosys_init self_produces]. apply in_or_app. left.
    destruct (pystr_eqb _ (str "vpr")); simpl; auto.
  - intros Hno. unfold dict_has. rewrite Hget, Hno. reflexivity.
Qed.

Lemma yosys_required_products_mapped_witness :
  let m := [(str "eblif", str "t.eblif");
            (str "fasm_extra", str "t_fasm_extra.fasm");
            (str "json", str "t.json");
            (str "synth_json", str "t_io.json");
            (str "rpt", str "/d_rpt.rpt")] in
  dict_has (str "rpt") m = true.
Proof.
  intros m.
  pose proof (@yosys_required_products_mapped pystr (fun s => s)
                (fun p s => p ++ str "/" ++ s)
                (fun p => []) (fun p => p)
                (str "ice40") (mkParams None (Some [str "rpt"; str "dbg!"]) None)
                (mkContext None (str "t") (str "d"))
                m eq_refl) as [H _].
  apply (H (str "rpt") (str "rpt")); [|reflexivity].
  cbn. auto.
Defined.

Lemma tcl_env_items_keys (d r : Dict) (k : pystr) :
  tcl_env_items d = Ok r -> In k (dict_keys r) -> In k (dict_keys d).
Proof.
  revert r. induction d as [|[key v] d IH]; intros r; cbn [tcl_env_items].
  - intros [= <-]. trivial.
  - destruct v as [|b|z|x|l|d0].
    + intros H Hin. right. now apply (IH r).
    + destruct (tcl_env_items d) as [r'|]; cbn; [|discriminate].
      intros [= <-] [<-|Hin]; [now left|right; now apply (IH r')].
    + destruct (tcl_env_items d) as [r'|]; cbn; [|discriminate].
      intros [= <-] [<-|Hin]; [now left|right; now apply (IH r')].
    + destruct (tcl_env_items d) as [r'|]; cbn; [|discriminate].
      intros [= <-] [<-|Hin]; [now left|right; now apply (IH r')].
    + destruct (join_space l) as [j|]; cbn; [|discriminate].
      destruct (tcl_env_items d) as [r'|]; cbn; [|discriminate].
      intros [= <-] [<-|Hin]; [now left|right; now apply (IH r')].
    + destruct (tcl_env_items d) as [r'|]; cbn; [|discriminate].
      intros [= <-] [<-|Hin]; [now left|right; now apply (IH r')].
Qed.

Lemma tcl_env_items_NoDup (d r : Dict) :
  NoDup (dict_keys d) -> tcl_env_items d = Ok r -> NoDup (dict_keys r).
Proof.
  revert r. induction d as [|[key v] d IH]; intros r Hnd; cbn [tcl_env_items].
  - intros [= <-]. constructor.
  - apply NoDup_cons_iff in Hnd as [Hk Hnd].
    assert (Hc : forall r' x, tcl_env_items d = Ok r' ->
                   NoDup (dict_keys ((key, x) :: r'))).
    { intros r' x Hr. cbn. constructor; [|now apply IH].
      intros Hin. apply Hk. exact (@tcl_env_items_keys d r' key Hr Hin). }
    destruct v as [|b|z|x|l|d0]; [now apply IH| | | | |];
      try (destruct (join_space l) as [j|]; cbn; [|discriminate]);
      (destruct (tcl_env_items d) as [r'|] eqn:Er; cbn; [|discriminate]);
      intros [= <-]; now apply Hc.
Qed.

(** The comprehension, read by key. *)
Lemma tcl_env_items_get (d r : Dict) (key : pystr) :
  NoDup (dict_keys d) -> tcl_env_items d = Ok r ->
  dict_get key r =
  match dict_get key d with
  | Some VNone | None => None
  | Some (VList l) =>
      match join_space l with Ok j => Some (VStr j) | Raise _ => None end
  | Some v => Some v
  end.
Proof.
  revert r. induction d as [|[k v] d IH]; intros r Hnd; cbn [tcl_env_items].
  - now intros [= <-].
  - apply NoDup_cons_iff in Hnd as [Hk Hnd]. cbn [dict_get].
    destruct (pystr_eqb key k) eqn:E.
    + apply pystr_eqb_eq in E. subst key.
      destruct v as [|b|z|x|l|d0];
        try (destruct (join_space l) as [j|]; cbn; [|discriminate]);
        try (destruct (tcl_env_items d) as [r'|] eqn:Er; cbn; [|discriminate];
             intros [= <-]; cbn; now rewrite pystr_eqb_refl).
      intros Hr. apply dict_get_absent. intros Hin. apply Hk.
      exact (@tcl_env_items_keys d r k Hr Hin).
    + destruct v as [|b|z|x|l|d0]; [now apply IH| | | | |];
        try (destruct (join_space l) as [j|]; cbn; [|discriminate]);
        (destruct (tcl_env_items d) as [r'|] eqn:Er; cbn; [|discriminate]);
        intros [= <-]; cbn; rewrite E; now apply IH.
Qed.

Lemma tcl_env_items_joins (d r : Dict) (key : pystr) (l : list Value) :
  NoDup (dict_keys d) -> tcl_env_items d = Ok r ->
  dict_get key d = Some (VList l) -> exists j, join_space l = Ok j.
Proof.
  revert r. induction d as [|[k v] d IH]; intros r Hnd; cbn [tcl_env_items];
    [discriminate|].
  apply NoDup_cons_iff in Hnd as [Hk Hnd]. cbn [dict_get].
  destruct (pystr_eqb key k) eqn:E.
  - intros Hr [= ->]. destruct (join_space l) as [j|]; [now exists j|].
    discriminate.
  - destruct v as [|b|z|x|l0|d0]; [now apply IH| | | | |];
      try (destruct (join_space l0) as [j|]; cbn; [|discriminate]);
      (destruct (tcl_env_items d) as [r'|] eqn:Er; cbn; [|discriminate]);
      intros _; now apply (IH r').
Qed.

Lemma dict_get_map_VStr (key : pystr) (environ : list (pystr * pystr)) :
  dict_get key (map (fun kv => (fst kv, VStr (snd kv))) environ)
  = option_map VStr (dict_get key environ).
Proof.
  induction environ as [|[k v] environ IH]; [reflexivity|].
  cbn. now destruct (pystr_eqb key k).
Qed.

(** X17. The environment [execute] builds for yosys: when the comprehension
    over [yosys_tcl_env] does not raise, a variable whose value there is a
    list of strings has the strings joined by single spaces, a variable
    with any other value that is not [None] has that value, and a variable
    that is [None] there or absent keeps what the process environment
    holds, so [None] does not unset an inherited variable. A
    [yosys_tcl_env] that is [None] or empty changes nothing, and one that is
    true without being a dict raises [AttributeError]. *)
Theorem execute_env_values
  (environ : list (pystr * pystr)) (d r : Dict) :
  NoDup (dict_keys d) ->
  tcl_env_items d = Ok r ->
  (exists env,
     execute_env environ (VDict d) = Done env
     /\ forall key,
          dict_get key env =
          match dict_get key d with
          | Some VNone | None => option_map VStr (dict_get key environ)
          | Some (VList l) =>
              match join_space l with
              | Ok j => Some (VStr j)
              | Raise _ => None
              end
          | Some v => Some v
          end)
  /\ (forall key l, dict_get key d = Some (VList l) ->
        exists j, join_space l = Ok j)
  /\ execute_env environ VNone
     = Done (map (fun kv => (fst kv, VStr (snd kv))) environ)
  /\ (forall v, truthy v = true -> (forall d', v <> VDict d') ->
        execute_env environ v = Fail AttributeError).
Proof.
  intros Hnd Hr. split; [|split; [|split]].
  - exists (dict_merge (map (fun kv => (fst kv, VStr (snd kv))) environ) r).
    split.
    + unfold execute_env, tcl_env_update. destruct d as [|kv d'].
      * cbn in Hr. injection Hr as <-. reflexivity.
      * cbn [truthy length Nat.eqb negb]. now rewrite Hr.
    + intros key.
      rewrite dict_get_merge by exact (@tcl_env_items_NoDup d r Hnd Hr).
      rewrite (@tcl_env_items_get d r key Hnd Hr), dict_get_map_VStr.
      destruct (dict_get key d) as [[|b|z|x|l|d0]|] eqn:Eg; try reflexivity.
      now destruct (@tcl_env_items_joins d r key l Hnd Hr Eg) as [j ->].
  - intros key l. exact (@tcl_env_items_joins d r key l Hnd Hr).
  - reflexivity.
  - intros v Hv Hd. unfold execute_env, tcl_env_update. rewrite Hv.
    destruct v; try reflexivity. now elim (Hd d0).
Qed.

Lemma execute_env_values_witness :
  exists env,
    execute_env [(str "A", str "old"); (str "P", str "/bin")]
                (VDict [(str "A", VNone);
                        (str "B", VList [VStr (str "x"); VStr (str "y")])])
    = Done env
    /\ dict_get (str "A") env = Some (VStr (str "old"))
    /\ dict_get (str "B") env = Some (VStr (str "x y")).
Proof.
  assert (Hnd : NoDup (dict_keys
                         [(str "A", VNone);
                          (str "B", VList [VStr (str "x"); VStr (str "y")])])).
  { repeat constructor; simpl; intuition discriminate. }
  destruct (@execute_env_values [(str "A", str "old"); (str "P", str "/bin")]
              [(str "A", VNone);
               (str "B", VList [VStr (str "x"); VStr (str "y")])]
              [(str "B", VStr (str "x y"))] Hnd eq_refl)
    as [[env [He Hget]] _].
  exists env. split; [exact He|].
  split; [exact (Hget (str "A"))|exact (Hget (str "B"))].
Defined.

(* ------------------------------------------------------------------ *)
(** ** Strings with several placeholders *)

(** X18. Substitutions in one string do not disturb each other: a
    placeholder whose key is bound to a string that is not empty is replaced
    by that string, as it is and without a further pass over it, between the
    resolutions of the text before it and of the text after it, whenever
    those two are strings. *)
Theorem resolve_bound_string_placeholder
  (vals : Dict) (final : bool) (pre n post pre' post' v : pystr) :
  name_chars n = true ->
  dict_get (remove_qmarks n) vals = Some (VStr v) ->
  v <> [] ->
  resolve vals (VStr pre) final = Ok (VStr pre') ->
  resolve vals (VStr post) final = Ok (VStr post') ->
  resolve vals (VStr (pre ++ placeholder n ++ post)) final
  = Ok (VStr (pre' ++ v ++ post')).
Proof.
  cbn [resolve]. intros Hn Hk Hv Hpre Hpost.
  rewrite (@resolve_str_split vals final pre n post post' Hn Hpost).
  rewrite resolve_match_placeholder.
  unfold substituted, fill. rewrite (lookup_bound _ _ Hk).
  destruct v as [|c v]; [contradiction|].
  cbn [truthy length Nat.eqb negb]. rewrite bind_ok.
  apply resolve_loop_prefix; [apply finditer_desc|exact Hpre].
Qed.

Lemma resolve_bound_string_placeholder_witness :
  resolve [(str "a", VStr (str "${b}")); (str "b", VStr (str "B"))]
          (VStr (str "${b}-" ++ placeholder (str "a") ++ str "-${b}")) false
  = Ok (VStr (str "B-" ++ str "${b}" ++ str "-B")).
Proof.
  apply (@resolve_bound_string_placeholder
           [(str "a", VStr (str "${b}")); (str "b", VStr (str "B"))] false
           (str "${b}-") (str "a") (str "-${b}") (str "B-") (str "-B")
           (str "${b}")); try reflexivity.
  discriminate.
Defined.

(** X19. A placeholder bound to a sequence has to be the leftmost one that
    is replaced. In a string with two placeholders and plain text around
    them, one bound to a string that is not empty and one bound to a
    sequence of strings that is not empty: when the sequence comes first the
    result is the sequence of strings with both replaced; when the string
    comes first [resolve] raises [TypeError]. *)
Theorem resolve_sequence_must_be_leftmost
  (vals : Dict) (final : bool) (a m b n c v : pystr) (vs : list pystr) :
  name_chars m = true -> name_chars n = true ->
  finditer a = [] -> finditer b = [] -> finditer c = [] ->
  dict_get (remove_qmarks m) vals = Some (VStr v) -> v <> [] ->
  dict_get (remove_qmarks n) vals = Some (VList (map VStr vs)) -> vs <> [] ->
  resolve vals (VStr (a ++ placeholder n ++ b ++ placeholder m ++ c)) final
    = Ok (VList (map (fun ve => VStr (a ++ ve ++ b ++ v ++ c)) vs))
  /\ resolve vals (VStr (a ++ placeholder m ++ b ++ placeholder n ++ c)) final
     = Raise TypeError.
Proof.
  intros Hm Hn Ha Hb Hc Hkm Hv Hkn Hvs. cbn [resolve].
  destruct v as [|cv v]; [contradiction|].
  destruct vs as [|y vs]; [contradiction|].
  assert (Hfill : forall pre post,
             fill pre post (lookup vals (remove_qmarks n))
             = Ok (VList (map (fun ve => VStr (pre ++ ve ++ post)) (y :: vs)))).
  { intros pre post. unfold fill. rewrite (lookup_bound _ _ Hkn).
    cbn [map truthy length Nat.eqb negb].
    change (VStr y :: map VStr vs) with (map VStr (y :: vs)).
    now rewrite map_res_fill_strs. }
  assert (Hsn : substituted vals final (remove_qmarks n) = true).
  { unfold substituted. now rewrite (lookup_bound _ _ Hkn). }
  split.
  - assert (Hpost : resolve_str vals (b ++ placeholder m ++ c) final
                    = Ok (VStr (b ++ (cv :: v) ++ c))).
    { rewrite resolve_str_single by trivial.
      unfold substituted, fill. now rewrite (lookup_bound _ _ Hkm). }
    rewrite (@resolve_str_split vals final a n _ _ Hn Hpost).
    rewrite resolve_match_placeholder, Hsn, Hfill, Ha. reflexivity.
  - rewrite !app_assoc. rewrite <- (app_assoc _ (placeholder n) c).
    rewrite (@resolve_str_split vals final ((a ++ placeholder m) ++ b) n c c Hn
               (resolve_str_plain vals final c Hc)).
    rewrite resolve_match_placeholder, Hsn, Hfill, bind_ok.
    rewrite <- app_assoc, (@finditer_placeholder a m b Hm), Ha, Hb.
    cbn [app map rev]. rewrite resolve_loop_cons.
    unfold resolve_match. cbn [m_group1].
    rewrite (lookup_bound _ _ Hkm). reflexivity.
Qed.

Lemma resolve_sequence_must_be_leftmost_witness :
  resolve [(str "s", VStr (str "S")); (str "l", VList (map VStr [str "X"; str "Y"]))]
          (VStr (str "<" ++ placeholder (str "s") ++ str "-"
                 ++ placeholder (str "l") ++ str ">")) false
  = Raise TypeError.
Proof.
  apply (@resolve_sequence_must_be_leftmost
           [(str "s", VStr (str "S"));
            (str "l", VList (map VStr [str "X"; str "Y"]))] false
           (str "<") (str "s") (str "-") (str "l") (str ">") (str "S")
           [str "X"; str "Y"]); try reflexivity; discriminate.
Defined.
